(** * FixedHash: a fixed-size byte container (lib/evmone/FixedHash.h)

    A shallow embedding of the [FixedHash<N>] class template and of the
    free functions around it, followed by the properties of the
    specification that were checked against it.

    Conventions of the embedding.
    - A [byte] ([uint8_t]) is a [Z] in [0, 256); a conversion to [byte] is
      [wrap8].  An [unsigned] is a [Z] in [0, 2^32); every operation the
      source performs on an [unsigned] is followed by [wrap32].
    - The storage [std::array<byte, N> m_data] is a [list Z] of length [N];
      [m_data[i]] is the total lookup [m_data !!! i] and an assignment
      [m_data[i] = x] is the list update [<[i:=x]> m_data].  The source
      never indexes out of range on the inputs considered here.
    - Template parameters ([N], [M], [P]) are explicit arguments of type
      [Z]; a template that fails to instantiate (a failed [static_assert],
      a template recursion without base case) is the result [None]. *)

From Stdlib Require Import ZArith Lia List Bool.
From stdpp Require Import base list.

Local Open Scope Z_scope.

(** ** Machine integers *)

Definition wrap (w z : Z) : Z := z mod 2 ^ w.

(** [(byte)z], [(uint8_t)z] *)
Definition wrap8 (z : Z) : Z := wrap 8 z.

(** arithmetic in [unsigned] *)
Definition wrap32 (z : Z) : Z := wrap 32 z.

Definition is_byte (b : Z) : Prop := 0 <= b < 256.

(** A well-formed [FixedHash<N>]: exactly [N] bytes. *)
Definition wf (N : Z) (v : list Z) : Prop :=
  Z.of_nat (length v) = N /\ Forall is_byte v.

(** The integer types [toBigEndian] and [fromBigEndian] are instantiated
    with: [bigint] (unbounded) or an unsigned type of a given width, such as
    [unsigned] or [FixedHash<N>::Arith], which has [N * 8] bits and is
    unchecked (it wraps). *)
Inductive arith : Type :=
  | Bigint
  | Unsigned (bits : Z).

(** [(T)z] *)
Definition cast (T : arith) (z : Z) : Z :=
  match T with
  | Bigint => z
  | Unsigned w => wrap w z
  end.

(** ** Big-endian codec *)

(** [for (auto i = o_out.size(); i != 0; _val >>= 8, i--)
       { T v = _val & (T)0xff; o_out[i - 1] = (uint8_t)v; }] *)
Fixpoint toBigEndian_loop (T : arith) (i : nat) (_val : Z) (o_out : list Z)
  : list Z :=
  match i with
  | O => o_out
  | S i' =>
      let v := Z.land _val (cast T 0xff) in
      toBigEndian_loop T i' (Z.shiftr _val 8) (<[i' := wrap8 v]> o_out)
  end.

Definition toBigEndian (T : arith) (_val : Z) (o_out : list Z) : list Z :=
  toBigEndian_loop T (length o_out) _val o_out.

(** [T ret = (T)0; for (auto i : _bytes) ret = (T)((ret << 8) | (byte)i);]
    The shift is computed in [T]. *)
Definition fromBigEndian (T : arith) (_bytes : list Z) : Z :=
  fold_left (fun ret i => cast T (Z.lor (cast T (Z.shiftl ret 8)) (wrap8 i)))
            _bytes (cast T 0).

(** [using Arith = number<cpp_int_backend<N * 8, N * 8, unsigned_magnitude,
                                          unchecked, void>>;]
    The width is the template argument [N * 8], computed in [unsigned]. *)
Definition Arith_bits (N : Z) : Z := wrap32 (N * 8).

(** [operator Arith() const { return fromBigEndian<Arith>(m_data); }] *)
Definition operator_Arith (N : Z) (m_data : list Z) : Z :=
  fromBigEndian (Unsigned (Arith_bits N)) m_data.

(** ** Construction *)

Inductive ConstructFromHashType : Type :=
  | AlignLeft
  | AlignRight
  | FailIfDifferent.

Definition is_AlignRight (_t : ConstructFromHashType) : bool :=
  match _t with AlignRight => true | _ => false end.

Definition is_FailIfDifferent (_t : ConstructFromHashType) : bool :=
  match _t with FailIfDifferent => true | _ => false end.

(** [FixedHash() { m_data.fill(0); }] *)
Definition FixedHash_empty (N : Z) : list Z := replicate (Z.to_nat N) 0.

(** [memcpy(dst, src + off, n)] for [n] bytes that both ranges have. *)
Definition memcpy (dst src : list Z) (off n : nat) : list Z :=
  take n (drop off src) ++ drop n dst.

(** The copy loop the size-adjusting constructors share:
    [for (unsigned i = 0; i < c; ++i)
       m_data[_t == AlignRight ? N - 1 - i : i]
         = src[_t == AlignRight ? srcSize - 1 - i : i];]
    [k] is the number of iterations left, [i] the loop counter.  The
    destination index is computed in [unsigned]; the source index in the
    type of the source's size ([sw] bits wide). *)
Fixpoint align_loop (k i : nat) (N srcSize sw : Z) (_t : ConstructFromHashType)
    (src m_data : list Z) : list Z :=
  match k with
  | O => m_data
  | S k' =>
      let di := if is_AlignRight _t
                then wrap32 (wrap32 (N - 1) - Z.of_nat i) else Z.of_nat i in
      let si := if is_AlignRight _t
                then wrap sw (wrap sw (srcSize - 1) - Z.of_nat i) else Z.of_nat i in
      align_loop k' (S i) N srcSize sw _t src
                 (<[Z.to_nat di := src !!! Z.to_nat si]> m_data)
  end.

(** [template <unsigned M> explicit FixedHash(FixedHash<M> const& _h,
       ConstructFromHashType _t = AlignLeft)
     { m_data.fill(0); unsigned c = std::min(M, N); for ... }] *)
Definition FixedHash_from_hash (N M : Z) (_h : list Z)
    (_t : ConstructFromHashType) : list Z :=
  let m_data := FixedHash_empty N in
  let c := Z.min M N in
  align_loop (Z.to_nat c) 0 N M 32 _t _h m_data.

(** The two constructors from a byte sequence,
    [explicit FixedHash(bytes const& _b, ConstructFromHashType _t = FailIfDifferent)]
    and
    [explicit FixedHash(bytesConstRef _b, ConstructFromHashType _t = FailIfDifferent)],
    have the same body but for the type [T] of [std::min<T>(_b.size(), N)]:
    [unsigned] in the first, [size_t] in the second (64 bits wide here, as
    is the machine word [operator==] of [FixedHash<32>] reads).
    [m_data0] is the storage before the constructor runs: its content is
    indeterminate.

    [if (_b.size() == N) memcpy(m_data.data(), _b.data(), std::min<T>(_b.size(), N));
     else { m_data.fill(0);
            if (_t != FailIfDifferent)
            { auto c = std::min<T>(_b.size(), N); for ... } }] *)
Definition FixedHash_from_bytes_at (T : arith) (N : Z) (m_data0 _b : list Z)
    (_t : ConstructFromHashType) : list Z :=
  let size := Z.of_nat (length _b) in
  if size =? N then
    memcpy m_data0 _b 0 (Z.to_nat (Z.min (cast T size) (cast T N)))
  else
    let m_data := FixedHash_empty N in
    if negb (is_FailIfDifferent _t) then
      let c := Z.min (cast T size) (cast T N) in
      align_loop (Z.to_nat c) 0 N size 64 _t _b m_data
    else m_data.

Definition FixedHash_from_bytes := FixedHash_from_bytes_at (Unsigned 32).
Definition FixedHash_from_bytesConstRef := FixedHash_from_bytes_at (Unsigned 64).

(** [explicit FixedHash(unsigned _u) { toBigEndian(_u, m_data); }] *)
Definition FixedHash_from_unsigned (m_data0 : list Z) (_u : Z) : list Z :=
  toBigEndian (Unsigned 32) _u m_data0.

(** [inline h160 right160(h256 const& _t)
     { h160 ret; memcpy(ret.data(), _t.data() + 12, 20); return ret; }] *)
Definition right160 (_t : list Z) : list Z :=
  let ret := FixedHash_empty 20 in
  memcpy ret _t 12 20.

(** ** Comparison *)

(** [m_data == _c.m_data] on [std::array]: element by element. *)
Fixpoint array_eq (a c : list Z) : bool :=
  match a, c with
  | [], [] => true
  | x :: a', y :: c' => (x =? y) && array_eq a' c'
  | _, _ => false
  end.

(** The byte order in which the machine reads a [uint64_t] from memory. *)
Inductive endianness : Type :=
  | LittleEndian
  | BigEndian.

(** [hash[k]] for [const uint64_t* hash = (const uint64_t* )p] *)
Definition load64 (e : endianness) (p : list Z) (k : nat) : Z :=
  let bs := take 8 (drop (8 * k) p) in
  match e with
  | BigEndian => fold_left (fun r b => r * 256 + b) bs 0
  | LittleEndian => fold_right (fun b r => b + 256 * r) 0 bs
  end.

(** [template<> inline bool FixedHash<32>::operator==(FixedHash<32> const& _other) const] *)
Definition eq32 (e : endianness) (m_data _other : list Z) : bool :=
  (load64 e m_data 0 =? load64 e _other 0)
  && (load64 e m_data 1 =? load64 e _other 1)
  && (load64 e m_data 2 =? load64 e _other 2)
  && (load64 e m_data 3 =? load64 e _other 3).

(** [operator==]: the specialisation for [N = 32], the generic body
    otherwise. *)
Definition FixedHash_eq (e : endianness) (N : Z) (m_data _c : list Z) : bool :=
  if N =? 32 then eq32 e m_data _c else array_eq m_data _c.

(** [for (unsigned i = 0; i < N; ++i)
       if (m_data[i] < _c.m_data[i]) return true;
       else if (m_data[i] > _c.m_data[i]) return false;
     return false;] *)
Fixpoint lt_loop (k i : nat) (m_data _c : list Z) : bool :=
  match k with
  | O => false
  | S k' =>
      if m_data !!! i <? _c !!! i then true
      else if m_data !!! i >? _c !!! i then false
      else lt_loop k' (S i) m_data _c
  end.

Definition FixedHash_lt (N : Z) (m_data _c : list Z) : bool :=
  lt_loop (Z.to_nat N) 0 m_data _c.

(** [operator>=] is [!operator<(_c)] *)
Definition FixedHash_ge (N : Z) (m_data _c : list Z) : bool :=
  negb (FixedHash_lt N m_data _c).

(** [operator<=] is [operator==(_c) || operator<(_c)] *)
Definition FixedHash_le (e : endianness) (N : Z) (m_data _c : list Z) : bool :=
  FixedHash_eq e N m_data _c || FixedHash_lt N m_data _c.

(** [operator>] is [!operator<=(_c)] *)
Definition FixedHash_gt (e : endianness) (N : Z) (m_data _c : list Z) : bool :=
  negb (FixedHash_le e N m_data _c).

(** ** Bitwise operators *)

(** [for (unsigned i = 0; i < N; ++i) m_data[i] op= _c.m_data[i];] *)
Fixpoint assign_loop (op : Z -> Z -> Z) (k i : nat) (m_data _c : list Z)
  : list Z :=
  match k with
  | O => m_data
  | S k' =>
      assign_loop op k' (S i)
        (<[i := wrap8 (op (m_data !!! i) (_c !!! i))]> m_data) _c
  end.

Definition xor_assign (N : Z) (m_data _c : list Z) : list Z :=
  assign_loop Z.lxor (Z.to_nat N) 0 m_data _c.

Definition or_assign (N : Z) (m_data _c : list Z) : list Z :=
  assign_loop Z.lor (Z.to_nat N) 0 m_data _c.

Definition and_assign (N : Z) (m_data _c : list Z) : list Z :=
  assign_loop Z.land (Z.to_nat N) 0 m_data _c.

(** [operator&] is [FixedHash( *this) &= _c] *)
Definition FixedHash_and (N : Z) (m_data _c : list Z) : list Z :=
  and_assign N m_data _c.

(** [bool contains(FixedHash const& _c) const { return ( *this & _c) == _c; }] *)
Definition contains (e : endianness) (N : Z) (m_data _c : list Z) : bool :=
  FixedHash_eq e N (FixedHash_and N m_data _c) _c.

(** ** Increment *)

(** [for (unsigned i = size; i > 0 && !++m_data[--i]; ) {}] *)
Fixpoint incr_loop (i : nat) (m_data : list Z) : list Z :=
  match i with
  | O => m_data
  | S i' =>
      let b := wrap8 (m_data !!! i' + 1) in
      let m_data' := <[i' := b]> m_data in
      if b =? 0 then incr_loop i' m_data' else m_data'
  end.

Definition FixedHash_incr (N : Z) (m_data : list Z) : list Z :=
  incr_loop (Z.to_nat N) m_data.

(** ** Bloom filter parts *)

(** [template <unsigned N> struct StaticLog2 { enum { result = 1 + StaticLog2<N/2>::result }; };
     template <> struct StaticLog2<1> { enum { result = 0 }; };]
    On a binary numeral, [N/2] drops the last digit. *)
Fixpoint StaticLog2_pos (N : positive) : Z :=
  match N with
  | xH => 0
  | xO N' | xI N' => 1 + StaticLog2_pos N'
  end.

(** [StaticLog2<0>] refers to itself: it has no value. *)
Definition StaticLog2 (N : Z) : option Z :=
  match N with
  | Zpos p => Some (StaticLog2_pos p)
  | _ => None
  end.

(** [for (unsigned j = 0; j < c_bloomBytes; ++j, ++p) index = (index << 8) | *p;]
    The pointer [p] is an offset into [m_data]; the loop returns the index
    and the advanced pointer. *)
Fixpoint index_loop (j : nat) (index : Z) (p : nat) (m_data : list Z)
  : Z * nat :=
  match j with
  | O => (index, p)
  | S j' =>
      index_loop j' (Z.lor (wrap32 (Z.shiftl index 8)) (m_data !!! p))
                 (S p) m_data
  end.

(** [for (unsigned i = 0; i < P; ++i)
     { unsigned index = 0; for ...;
       index &= c_mask;
       ret[M - 1 - index / 8] |= (1 << (index % 8)); }] *)
Fixpoint pick_loop (i : nat) (M c_mask : Z) (c_bloomBytes : nat) (p : nat)
    (m_data ret : list Z) : list Z :=
  match i with
  | O => ret
  | S i' =>
      let '(index, p') := index_loop c_bloomBytes 0 p m_data in
      let index := Z.land index c_mask in
      let pos := Z.to_nat (wrap32 (wrap32 (M - 1) - index / 8)) in
      pick_loop i' M c_mask c_bloomBytes p' m_data
        (<[pos := wrap8 (Z.lor (ret !!! pos) (Z.shiftl 1 (index mod 8)))]> ret)
  end.

(** [template <unsigned P, unsigned M> inline FixedHash<M> bloomPart() const]
    of [FixedHash<N>]. *)
Definition bloomPart (P M N : Z) (m_data : list Z) : option (list Z) :=
  let c_bloomBits := wrap32 (M * 8) in
  let c_mask := wrap32 (c_bloomBits - 1) in
  match StaticLog2 c_bloomBits with
  | None => None
  | Some log2 =>
      let c_bloomBytes := (log2 + 7) / 8 in
      if (Z.land M (wrap32 (M - 1)) =? 0)
         && (wrap32 (P * c_bloomBytes) <=? N)
      then
        let ret := FixedHash_empty M in
        Some (pick_loop (Z.to_nat P) M c_mask (Z.to_nat c_bloomBytes) 0
                        m_data ret)
      else None
  end.

(** [template <unsigned P, unsigned M> inline FixedHash& shiftBloom(FixedHash<M> const& _h)
     { return ( *this |= _h.template bloomPart<P, N>()); }] *)
Definition shiftBloom (P M N : Z) (m_data _h : list Z) : option (list Z) :=
  match bloomPart P N M _h with
  | Some part => Some (or_assign N m_data part)
  | None => None
  end.

(** [template <unsigned P, unsigned M> inline bool containsBloom(FixedHash<M> const& _h)
     { return contains(_h.template bloomPart<P, N>()); }] *)
Definition containsBloom (e : endianness) (P M N : Z) (m_data _h : list Z)
  : option bool :=
  match bloomPart P N M _h with
  | Some part => Some (contains e N m_data part)
  | None => None
  end.

(** ** First set bit *)

(** [for (;; ++ret, d <<= 1) { if (d & 0x80) return ret; }] with [d] a
    [byte].  The loop has no exit but the [return]; [fuel] bounds the
    number of iterations and [None] means it ran out. *)
Fixpoint firstBitSet_scan (fuel : nat) (ret d : Z) : option Z :=
  match fuel with
  | O => None
  | S fuel' =>
      if negb (Z.land d 0x80 =? 0) then Some ret
      else firstBitSet_scan fuel' (wrap32 (ret + 1)) (wrap8 (Z.shiftl d 1))
  end.

(** [for (auto d : m_data) if (d) { ... } else ret += 8; return ret;] *)
Fixpoint firstBitSet_loop (fuel : nat) (m_data : list Z) (ret : Z)
  : option Z :=
  match m_data with
  | [] => Some ret
  | d :: rest =>
      if negb (d =? 0) then firstBitSet_scan fuel ret d
      else firstBitSet_loop fuel rest (wrap32 (ret + 8))
  end.

Definition firstBitSet (fuel : nat) (m_data : list Z) : option Z :=
  firstBitSet_loop fuel m_data 0.

(** ** The rest of the class *)

(** [bool operator!=(FixedHash const& _c) const { return m_data != _c.m_data; }]
    This operator has no specialisation: it is the comparison of the two
    [std::array]s for every [N]. *)
Definition FixedHash_ne (m_data _c : list Z) : bool :=
  negb (array_eq m_data _c).

(** [explicit operator bool() const
     { return std::any_of(m_data.begin(), m_data.end(),
                          [](byte _b) { return _b != 0; }); }] *)
Definition FixedHash_bool (m_data : list Z) : bool :=
  existsb (fun _b => negb (_b =? 0)) m_data.

(** [operator^] is [FixedHash( *this) ^= _c], [operator|] is
    [FixedHash( *this) |= _c]. *)
Definition FixedHash_xor (N : Z) (m_data _c : list Z) : list Z :=
  xor_assign N m_data _c.

Definition FixedHash_or (N : Z) (m_data _c : list Z) : list Z :=
  or_assign N m_data _c.

(** [FixedHash operator~() const
     { FixedHash ret; for (unsigned i = 0; i < N; ++i) ret[i] = ~m_data[i];
       return ret; }]
    [~] is computed on the promoted [int]; the assignment converts back
    to [byte]. *)
Fixpoint not_loop (k i : nat) (m_data ret : list Z) : list Z :=
  match k with
  | O => ret
  | S k' =>
      not_loop k' (S i) m_data (<[i := wrap8 (Z.lnot (m_data !!! i))]> ret)
  end.

Definition FixedHash_not (N : Z) (m_data : list Z) : list Z :=
  not_loop (Z.to_nat N) 0 m_data (FixedHash_empty N).

(** [bytes asBytes() const { return bytes(data(), data() + N); }] *)
Definition asBytes (N : Z) (m_data : list Z) : list Z :=
  take (Z.to_nat N) m_data.

(** [explicit FixedHash(byte const* _bs, ConstructFromPointerType)
     { memcpy(m_data.data(), _bs, N); }]
    [_bs] is the memory from the pointer on. *)
Definition FixedHash_from_pointer (N : Z) (m_data0 _bs : list Z) : list Z :=
  memcpy m_data0 _bs 0 (Z.to_nat N).

(** [void clear() { m_data.fill(0); }] *)
Definition clear (N : Z) (m_data : list Z) : list Z :=
  replicate (Z.to_nat N) 0.


(** ** Arithmetic reading of a byte sequence *)

(** The unbounded non-negative integer a byte sequence denotes, most
    significant byte first. *)
Definition be_value (l : list Z) : Z :=
  fold_left (fun r b => r * 256 + b) l 0.

(** The [n] low-order bytes of [z], most significant first. *)
Fixpoint be_bytes (n : nat) (z : Z) : list Z :=
  match n with
  | O => []
  | S n' => be_bytes n' (z / 256) ++ [z mod 256]
  end.

(** ** Reference notions the properties are stated with *)

(** Lexicographic "less than" on two byte sequences, first byte first. *)
Fixpoint lex_lt (a c : list Z) : bool :=
  match a, c with
  | x :: a', y :: c' =>
      if x <? y then true else if x >? y then false else lex_lt a' c'
  | _, _ => false
  end.

(** The number eight bytes denote, least significant byte first. *)
Definition le_value (l : list Z) : Z :=
  fold_right (fun b r => b + 256 * r) 0 l.

(** What the specification says the constructors from a byte sequence
    produce: the bytes themselves when there are exactly [N]; otherwise
    all zeros under [FailIfDifferent], and under the two alignments a
    zero-filled value holding [min (length _b) N] bytes of [_b], matched
    from the starts ([AlignLeft]) or from the ends ([AlignRight]). *)
Definition from_bytes_spec (N : Z) (_b : list Z) (_t : ConstructFromHashType)
  : list Z :=
  let n := Z.to_nat N in
  let c := Nat.min (length _b) n in
  if decide (length _b = n) then _b
  else match _t with
       | FailIfDifferent => replicate n 0
       | AlignLeft => take c _b ++ replicate (n - c) 0
       | AlignRight => replicate (n - c) 0 ++ drop (length _b - c) _b
       end.

(** Bit [q] of a value when its bits are numbered from the most
    significant bit of byte 0: bit [q] is in byte [q / 8], at position
    [7 - q mod 8] of it. *)
Definition bit_msb (v : list Z) (q : Z) : bool :=
  Z.testbit (v !!! Z.to_nat (q / 8)) (7 - q mod 8).

(** The bloom part as the specification describes it.  [bytesPerPick] is
    [ceil(log2(bits) / 8)] for [bits = M * 8]; pick [j] reads the bytes
    [j * bytesPerPick, (j + 1) * bytesPerPick) of the source as a
    big-endian number and masks it with [bits - 1]; [set_bit] sets bit
    [index mod 8] of byte [M - 1 - index / 8]. *)
Definition bytesPerPick (M : Z) : nat :=
  Z.to_nat ((Z.log2 (M * 8) + 7) / 8).

Definition pick_index (M : Z) (v : list Z) (j : nat) : Z :=
  let bpp := bytesPerPick M in
  Z.land (be_value (take bpp (drop (j * bpp) v))) (M * 8 - 1).

Definition set_bit (M : Z) (ret : list Z) (index : Z) : list Z :=
  let pos := Z.to_nat (M - 1 - index / 8) in
  <[pos := Z.lor (ret !!! pos) (2 ^ (index mod 8))]> ret.

Definition bloom_spec (P M : Z) (v : list Z) : list Z :=
  fold_left (fun ret j => set_bit M ret (pick_index M v j))
            (seq 0 (Z.to_nat P)) (replicate (Z.to_nat M) 0).

(** The number of bits set in a byte, and in a value. *)
Definition popcount_byte (b : Z) : Z :=
  fold_right (fun k acc => Z.b2z (Z.testbit b k) + acc) 0
             [0; 1; 2; 3; 4; 5; 6; 7].

Definition popcount (v : list Z) : Z :=
  fold_right (fun b acc => popcount_byte b + acc) 0 v.

(** ** Basic facts *)

(** Well-formedness of a concrete value. *)
Ltac solve_wf :=
  split; [reflexivity | repeat (constructor; [unfold is_byte; lia|]); constructor].

Lemma wrap_small w z : 0 <= z < 2 ^ w -> wrap w z = z.
Proof. intros H. unfold wrap. apply Z.mod_small. exact H. Qed.

Lemma wrap8_byte b : is_byte b -> wrap8 b = b.
Proof. intros H. apply wrap_small. exact H. Qed.

Lemma wrap8_is_byte z : is_byte (wrap8 z).
Proof. unfold is_byte, wrap8, wrap. apply Z.mod_pos_bound. lia. Qed.

Lemma wrap32_small z : 0 <= z < 2 ^ 32 -> wrap32 z = z.
Proof. apply wrap_small. Qed.

Lemma byte_testbit_high b n : is_byte b -> 8 <= n -> Z.testbit b n = false.
Proof.
  intros [Hlo Hhi] Hn.
  destruct (Z.eq_dec b 0) as [->|Hne]; [apply Z.bits_0|].
  apply Z.bits_above_log2; [lia|].
  assert (Z.log2 b < 8); [|lia].
  apply Z.log2_lt_pow2; lia.
Qed.

Lemma lor_shiftl8 r b : is_byte b -> Z.lor (Z.shiftl r 8) b = r * 256 + b.
Proof.
  intros Hb.
  assert (Hdisj : Z.land (Z.shiftl r 8) b = 0).
  { apply Z.bits_inj'. intros n Hn.
    rewrite Z.land_spec, Z.bits_0.
    destruct (Z_lt_le_dec n 8).
    - rewrite Z.shiftl_spec_low by lia. reflexivity.
    - rewrite (byte_testbit_high b n) by assumption. apply andb_false_r. }
  rewrite <- Z.lxor_lor by exact Hdisj.
  rewrite <- Z.add_nocarry_lxor by exact Hdisj.
  rewrite Z.shiftl_mul_pow2 by lia. reflexivity.
Qed.

Lemma be_value_acc (l : list Z) (acc : Z) :
  fold_left (fun r b => r * 256 + b) l acc
  = acc * 2 ^ (8 * Z.of_nat (length l)) + be_value l.
Proof.
  unfold be_value. revert acc.
  induction l as [|b l IH]; intros acc.
  - simpl. lia.
  - cbn [fold_left]. rewrite (IH (acc * 256 + b)), (IH (0 * 256 + b)).
    rewrite length_cons, Nat2Z.inj_succ.
    replace (8 * Z.succ (Z.of_nat (length l)))
      with (8 + 8 * Z.of_nat (length l)) by lia.
    rewrite Z.pow_add_r by lia. change (2 ^ 8) with 256. ring.
Qed.

Lemma be_value_nil : be_value [] = 0.
Proof. reflexivity. Qed.

Lemma be_value_cons b l :
  be_value (b :: l) = b * 2 ^ (8 * Z.of_nat (length l)) + be_value l.
Proof.
  unfold be_value at 1. cbn [fold_left]. rewrite be_value_acc. lia.
Qed.

Lemma be_value_snoc l b : be_value (l ++ [b]) = be_value l * 256 + b.
Proof. unfold be_value. rewrite fold_left_app. reflexivity. Qed.

Lemma be_value_range l :
  Forall is_byte l -> 0 <= be_value l < 2 ^ (8 * Z.of_nat (length l)).
Proof.
  induction 1 as [|b l Hb Hl IH].
  - rewrite be_value_nil. simpl. lia.
  - rewrite be_value_cons, length_cons, Nat2Z.inj_succ.
    replace (8 * Z.succ (Z.of_nat (length l)))
      with (8 + 8 * Z.of_nat (length l)) by lia.
    rewrite Z.pow_add_r by lia. change (2 ^ 8) with 256.
    unfold is_byte in Hb. nia.
Qed.

(** [fromBigEndian] computes [be_value] as long as the type is wide
    enough for the sequence. *)
Lemma fromBigEndian_loop_value T l acc :
  Forall is_byte l -> 0 <= acc ->
  (forall w, T = Unsigned w ->
     0 <= w /\ fold_left (fun r b => r * 256 + b) l acc < 2 ^ w) ->
  fold_left (fun ret i => cast T (Z.lor (cast T (Z.shiftl ret 8)) (wrap8 i))) l acc
  = fold_left (fun r b => r * 256 + b) l acc.
Proof.
  intros Hl. revert acc.
  induction Hl as [|b l Hb Hl IH]; intros acc Hacc HT; [reflexivity|].
  cbn [fold_left].
  assert (Hstep : forall z, 0 <= z <= acc * 256 + b -> cast T z = z).
  { intros z Hz. destruct T as [|w]; [reflexivity|]. cbn [cast].
    destruct (HT w eq_refl) as [Hw Hlt]. cbn [fold_left] in Hlt.
    rewrite be_value_acc in Hlt.
    pose proof (be_value_range l Hl) as Hr. unfold is_byte in Hb.
    apply wrap_small.
    assert (1 <= 2 ^ (8 * Z.of_nat (length l))) by (apply Z.pow_le_mono_r with (b := 0); lia).
    nia. }
  rewrite (Hstep (Z.shiftl acc 8))
    by (rewrite Z.shiftl_mul_pow2 by lia; change (2 ^ 8) with 256;
        unfold is_byte in Hb; lia).
  rewrite wrap8_byte, lor_shiftl8 by assumption.
  rewrite Hstep by (unfold is_byte in Hb; lia). apply IH; [unfold is_byte in Hb; lia|].
  intros w Hw. exact (HT w Hw).
Qed.

Lemma fromBigEndian_bigint l :
  Forall is_byte l -> fromBigEndian Bigint l = be_value l.
Proof.
  intros Hl. unfold fromBigEndian, be_value. change (cast Bigint 0) with 0.
  apply (fromBigEndian_loop_value Bigint); [assumption|lia|discriminate].
Qed.

Lemma fromBigEndian_unsigned w l :
  Forall is_byte l -> 8 * Z.of_nat (length l) <= w ->
  fromBigEndian (Unsigned w) l = be_value l.
Proof.
  intros Hl Hw. unfold fromBigEndian, be_value.
  assert (H0 : cast (Unsigned w) 0 = 0) by (cbn; unfold wrap; apply Z.mod_0_l; lia).
  rewrite H0.
  apply fromBigEndian_loop_value; [assumption|lia|].
  intros w' [= <-]. split; [lia|].
  fold (be_value l). pose proof (be_value_range l Hl).
  assert (2 ^ (8 * Z.of_nat (length l)) <= 2 ^ w) by (apply Z.pow_le_mono_r; lia).
  lia.
Qed.

(** ** The codec round trip *)

Lemma drop_insert_here (l : list Z) (i : nat) (x : Z) :
  (i < length l)%nat -> drop i (<[i := x]> l) = x :: drop (S i) l.
Proof.
  revert i. induction l as [|y l IH]; intros [|i] Hi; simpl in *; try lia.
  - rewrite drop_0. reflexivity.
  - apply IH. lia.
Qed.

Lemma take_insert_here (l : list Z) (i : nat) (x : Z) :
  take i (<[i := x]> l) = take i l.
Proof.
  revert i. induction l as [|y l IH]; intros [|i]; simpl; try reflexivity.
  f_equal. apply IH.
Qed.

Lemma length_be_bytes n z : length (be_bytes n z) = n.
Proof.
  revert z. induction n as [|n IH]; intros z; [reflexivity|].
  cbn [be_bytes]. rewrite length_app, IH. simpl. lia.
Qed.

Lemma toBigEndian_loop_bytes T i _val o_out :
  cast T 255 = 255 -> (i <= length o_out)%nat ->
  toBigEndian_loop T i _val o_out = be_bytes i _val ++ drop i o_out.
Proof.
  intros HT. revert _val o_out.
  induction i as [|i IH]; intros _val o_out Hi.
  - simpl. rewrite drop_0. reflexivity.
  - cbn [toBigEndian_loop be_bytes]. rewrite HT.
    rewrite IH by (rewrite length_insert; lia).
    rewrite drop_insert_here by lia.
    change 255 with (Z.ones 8). rewrite Z.land_ones by lia.
    rewrite Z.shiftr_div_pow2 by lia. change (2 ^ 8) with 256.
    unfold wrap8, wrap. change (2 ^ 8) with 256.
    rewrite Z.mod_mod by lia.
    rewrite <- app_assoc. reflexivity.
Qed.

Lemma be_bytes_value l :
  Forall is_byte l -> be_bytes (length l) (be_value l) = l.
Proof.
  induction l as [|b l IH] using rev_ind; intros Hl; [reflexivity|].
  apply Forall_app in Hl as [Hl Hb]. apply Forall_cons in Hb as [Hb _].
  rewrite length_app, Nat.add_comm. cbn [length Nat.add be_bytes].
  rewrite be_value_snoc. unfold is_byte in Hb.
  replace ((be_value l * 256 + b) / 256) with (be_value l)
    by (apply Z.div_unique with (r := b); lia).
  replace ((be_value l * 256 + b) mod 256) with b
    by (apply Z.mod_unique with (q := be_value l); lia).
  rewrite IH by assumption. reflexivity.
Qed.

Lemma cast_Arith_255 N : 0 < N -> cast (Unsigned (N * 8)) 255 = 255.
Proof.
  intros HN. cbn [cast]. apply wrap_small.
  assert (2 ^ 8 <= 2 ^ (N * 8)) by (apply Z.pow_le_mono_r; lia).
  change (2 ^ 8) with 256 in *. lia.
Qed.

(** C8.  For every [N]-byte value [v], encoding with [toBigEndian] the
    number [fromBigEndian] decodes from [v], in an unsigned arithmetic
    type of exactly [N * 8] bits and into any [N]-byte destination, gives
    back [v]: the conversion between bytes and integer round-trips. *)
Theorem toBigEndian_fromBigEndian_roundtrip (N : Z) (v o_out : list Z) :
  wf N v -> length o_out = length v ->
  toBigEndian (Unsigned (N * 8)) (fromBigEndian (Unsigned (N * 8)) v) o_out = v.
Proof.
  intros [Hlen Hb] Hout.
  rewrite fromBigEndian_unsigned by (assumption || lia).
  unfold toBigEndian. rewrite Hout.
  destruct v as [|b v].
  - destruct o_out; [reflexivity|discriminate].
  - rewrite toBigEndian_loop_bytes.
    + rewrite <- Hout, drop_all, app_nil_r, Hout. apply be_bytes_value. exact Hb.
    + apply cast_Arith_255. rewrite <- Hlen, length_cons. lia.
    + lia.
Qed.

Lemma toBigEndian_fromBigEndian_roundtrip_witness :
  toBigEndian (Unsigned (4 * 8))
              (fromBigEndian (Unsigned (4 * 8)) [0xde; 0xad; 0xbe; 0xef])
              [0; 0; 0; 0]
  = [0xde; 0xad; 0xbe; 0xef].
Proof.
  apply (toBigEndian_fromBigEndian_roundtrip 4); [|reflexivity].
  split; [reflexivity|]. repeat constructor; unfold is_byte; lia.
Defined.

(** ** Equality *)

Lemma array_eq_true (a c : list Z) : array_eq a c = true <-> a = c.
Proof.
  revert c. induction a as [|x a IH]; intros [|y c]; simpl; try (split; congruence).
  rewrite andb_true_iff, Z.eqb_eq, IH. split.
  - intros [-> ->]. reflexivity.
  - intros [= -> ->]. split; reflexivity.
Qed.

Lemma be_value_inj (a c : list Z) :
  Forall is_byte a -> Forall is_byte c -> length a = length c ->
  be_value a = be_value c -> a = c.
Proof.
  intros Ha Hc Hlen Hv.
  rewrite <- (be_bytes_value a Ha), <- (be_bytes_value c Hc), Hlen, Hv.
  reflexivity.
Qed.

Lemma le_value_inj (a c : list Z) :
  Forall is_byte a -> Forall is_byte c -> length a = length c ->
  le_value a = le_value c -> a = c.
Proof.
  intros Ha. revert c.
  induction Ha as [|x a Hx Ha IH]; intros c Hc Hlen Hv.
  - destruct c; [reflexivity|discriminate].
  - destruct Hc as [|y c Hy Hc]; [discriminate|].
    cbn [le_value fold_right] in Hv. fold (le_value a) in Hv. fold (le_value c) in Hv.
    unfold is_byte in Hx, Hy.
    assert (x = y /\ le_value a = le_value c) as [-> Hr] by lia.
    f_equal. apply IH; [assumption| |assumption].
    simpl in Hlen. lia.
Qed.

Lemma load64_inj e (a c : list Z) (k : nat) :
  Forall is_byte a -> Forall is_byte c -> length a = length c ->
  load64 e a k = load64 e c k ->
  take 8 (drop (8 * k) a) = take 8 (drop (8 * k) c).
Proof.
  intros Ha Hc Hlen Hv. unfold load64 in Hv.
  assert (Hl : length (take 8 (drop (8 * k) a)) = length (take 8 (drop (8 * k) c)))
    by (rewrite !length_take, !length_drop, Hlen; reflexivity).
  destruct e.
  - apply le_value_inj; auto using Forall_take, Forall_drop.
  - apply be_value_inj; auto using Forall_take, Forall_drop.
Qed.

Lemma chunks32 (a : list Z) :
  length a = 32%nat ->
  a = take 8 (drop (8 * 0) a) ++ take 8 (drop (8 * 1) a)
      ++ take 8 (drop (8 * 2) a) ++ take 8 (drop (8 * 3) a).
Proof.
  intros Hlen. change (8 * 0)%nat with 0%nat. change (8 * 1)%nat with 8%nat.
  change (8 * 2)%nat with (8 + 8)%nat. change (8 * 3)%nat with ((8 + 8) + 8)%nat.
  rewrite drop_0, <- !drop_drop.
  rewrite (take_ge (drop 8 (drop 8 (drop 8 a))))
    by (rewrite !length_drop; lia).
  rewrite !take_drop. reflexivity.
Qed.

Lemma eq32_true e (a c : list Z) :
  wf 32 a -> wf 32 c -> eq32 e a c = true <-> a = c.
Proof.
  intros [Hla Ha] [Hlc Hc]. split.
  - unfold eq32. rewrite !andb_true_iff, !Z.eqb_eq.
    intros [[[H0 H1] H2] H3].
    assert (Hlen : length a = length c) by lia.
    rewrite (chunks32 a), (chunks32 c) by lia.
    rewrite (load64_inj e a c 0), (load64_inj e a c 1),
      (load64_inj e a c 2), (load64_inj e a c 3) by assumption.
    reflexivity.
  - intros ->. unfold eq32. rewrite !Z.eqb_refl. reflexivity.
Qed.

Lemma FixedHash_eq_true e N (a c : list Z) :
  wf N a -> wf N c -> FixedHash_eq e N a c = true <-> a = c.
Proof.
  intros Ha Hc. unfold FixedHash_eq.
  destruct (Z.eqb_spec N 32) as [->|_].
  - apply eq32_true; assumption.
  - apply array_eq_true.
Qed.

(** C6.  On every pair of 32-byte values the equality operator
    specialised for [N = 32], which compares four 8-byte machine words
    (read in either byte order), returns the same boolean as the generic
    comparison of the 32 bytes; [operator==] at [N = 32], which is that
    specialisation, therefore agrees with the generic body. *)
Theorem eq32_agrees_with_bytewise (e : endianness) (a b : list Z) :
  wf 32 a -> wf 32 b ->
  eq32 e a b = array_eq a b /\ FixedHash_eq e 32 a b = array_eq a b.
Proof.
  intros Ha Hb.
  assert (H : eq32 e a b = array_eq a b).
  { apply eq_true_iff_eq. rewrite eq32_true, array_eq_true by assumption.
    reflexivity. }
  split; [exact H|]. unfold FixedHash_eq. rewrite Z.eqb_refl. exact H.
Qed.


Lemma eq32_agrees_with_bytewise_witness :
  let a := [1; 2; 3; 4; 5; 6; 7; 8; 9; 10; 11; 12; 13; 14; 15; 16;
            17; 18; 19; 20; 21; 22; 23; 24; 25; 26; 27; 28; 29; 30; 31; 32] in
  let b := [1; 2; 3; 4; 5; 6; 7; 8; 9; 10; 11; 12; 13; 14; 15; 16;
            17; 18; 19; 20; 21; 22; 23; 24; 25; 26; 27; 28; 29; 30; 31; 33] in
  eq32 LittleEndian a b = array_eq a b
  /\ FixedHash_eq LittleEndian 32 a b = array_eq a b.
Proof.
  intros a b. apply (eq32_agrees_with_bytewise LittleEndian a b);
    subst a b; solve_wf.
Defined.

(** ** Ordering *)

Lemma drop_lookup_total (l : list Z) (i : nat) :
  (i < length l)%nat -> drop i l = l !!! i :: drop (S i) l.
Proof.
  revert i. induction l as [|x l IH]; intros [|i] Hi; simpl in *; try lia.
  - rewrite drop_0. reflexivity.
  - apply IH. lia.
Qed.

Lemma lt_loop_lex (k i : nat) (a c : list Z) :
  length a = (i + k)%nat -> length c = (i + k)%nat ->
  lt_loop k i a c = lex_lt (drop i a) (drop i c).
Proof.
  revert i. induction k as [|k IH]; intros i Ha Hc.
  - rewrite !drop_ge by lia. reflexivity.
  - cbn [lt_loop]. rewrite (drop_lookup_total a i), (drop_lookup_total c i) by lia.
    cbn [lex_lt]. rewrite IH by lia. reflexivity.
Qed.

Lemma lex_lt_value (a c : list Z) :
  Forall is_byte a -> Forall is_byte c -> length a = length c ->
  lex_lt a c = (be_value a <? be_value c).
Proof.
  intros Ha. revert c.
  induction Ha as [|x a Hx Ha IH]; intros c Hc Hlen.
  - destruct c; [reflexivity|discriminate].
  - destruct Hc as [|y c Hy Hc]; [discriminate|].
    simpl in Hlen. assert (Hl : length a = length c) by lia.
    cbn [lex_lt]. rewrite !be_value_cons, <- Hl.
    pose proof (be_value_range a Ha) as Ra.
    pose proof (be_value_range c Hc) as Rc. rewrite <- Hl in Rc.
    unfold is_byte in Hx, Hy.
    set (W := 2 ^ (8 * Z.of_nat (length a))) in *.
    destruct (Z.ltb_spec x y) as [Hxy|Hxy].
    + symmetry. apply Z.ltb_lt. nia.
    + rewrite Z.gtb_ltb. destruct (Z.ltb_spec y x) as [Hyx|Hyx].
      * symmetry. apply Z.ltb_ge. nia.
      * assert (x = y) as -> by lia. rewrite IH by assumption.
        destruct (Z.ltb_spec (be_value a) (be_value c));
          symmetry; [apply Z.ltb_lt|apply Z.ltb_ge]; lia.
Qed.

Lemma FixedHash_lt_lex N (a c : list Z) :
  wf N a -> wf N c -> FixedHash_lt N a c = lex_lt a c.
Proof.
  intros [Hla _] [Hlc _]. unfold FixedHash_lt.
  rewrite lt_loop_lex by lia. rewrite !drop_0. reflexivity.
Qed.

Lemma FixedHash_lt_value N (a c : list Z) :
  wf N a -> wf N c ->
  FixedHash_lt N a c = (fromBigEndian Bigint a <? fromBigEndian Bigint c).
Proof.
  intros Ha Hc. rewrite (FixedHash_lt_lex N) by assumption.
  destruct Ha as [Hla Ha], Hc as [Hlc Hc].
  rewrite !fromBigEndian_bigint by assumption.
  apply lex_lt_value; [assumption..|lia].
Qed.

Lemma FixedHash_eq_value e N (a c : list Z) :
  wf N a -> wf N c ->
  FixedHash_eq e N a c = (fromBigEndian Bigint a =? fromBigEndian Bigint c).
Proof.
  intros Ha Hc. apply eq_true_iff_eq.
  rewrite (FixedHash_eq_true e N), Z.eqb_eq by assumption.
  destruct Ha as [Hla Ha], Hc as [Hlc Hc].
  rewrite !fromBigEndian_bigint by assumption. split.
  - intros ->. reflexivity.
  - apply be_value_inj; [assumption..|lia].
Qed.

Lemma FixedHash_le_value e N (a c : list Z) :
  wf N a -> wf N c ->
  FixedHash_le e N a c = (fromBigEndian Bigint a <=? fromBigEndian Bigint c).
Proof.
  intros Ha Hc. unfold FixedHash_le.
  rewrite (FixedHash_eq_value e N), (FixedHash_lt_value N) by assumption.
  destruct (Z.eqb_spec (fromBigEndian Bigint a) (fromBigEndian Bigint c));
  destruct (Z.ltb_spec (fromBigEndian Bigint a) (fromBigEndian Bigint c));
  destruct (Z.leb_spec (fromBigEndian Bigint a) (fromBigEndian Bigint c));
  simpl; lia || reflexivity.
Qed.

(** C7.  For values [a], [b] (and [c]) of the same size [N]: [operator<]
    is the lexicographic comparison of the bytes from index 0, and [<],
    [<=], [>], [>=] and [==] hold exactly when the big-endian unsigned
    numbers the values decode to are in that relation; [<=] is a total
    order (reflexive, antisymmetric, transitive, total) whose strict part
    is [<]. *)
Theorem ordering_is_big_endian_numeric (e : endianness) (N : Z)
    (a b c : list Z) :
  wf N a -> wf N b -> wf N c ->
  let num := fromBigEndian Bigint in
  FixedHash_lt N a b = lex_lt a b
  /\ FixedHash_lt N a b = (num a <? num b)
  /\ FixedHash_le e N a b = (num a <=? num b)
  /\ FixedHash_gt e N a b = (num a >? num b)
  /\ FixedHash_ge N a b = (num a >=? num b)
  /\ (FixedHash_eq e N a b = true <-> a = b)
  /\ FixedHash_le e N a a = true
  /\ (FixedHash_le e N a b = true -> FixedHash_le e N b a = true -> a = b)
  /\ (FixedHash_le e N a b = true -> FixedHash_le e N b c = true ->
      FixedHash_le e N a c = true)
  /\ (FixedHash_le e N a b = true \/ FixedHash_le e N b a = true)
  /\ (FixedHash_lt N a b = true <->
      FixedHash_le e N a b = true /\ a <> b).
Proof.
  intros Ha Hb Hc num.
  pose proof (FixedHash_eq_true e N a b Ha Hb) as Heq.
  pose proof (FixedHash_eq_value e N a b Ha Hb) as Heqv.
  unfold FixedHash_gt, FixedHash_ge.
  rewrite !(FixedHash_le_value e N), !(FixedHash_lt_value N) by assumption.
  fold num in Heqv |- *.
  assert (Hinj : num a = num b <-> a = b).
  { rewrite <- Heq, Heqv, Z.eqb_eq. reflexivity. }
  repeat split.
  - rewrite <- (FixedHash_lt_value N) by assumption.
    apply FixedHash_lt_lex; assumption.
  - rewrite Z.gtb_ltb, Z.ltb_antisym. reflexivity.
  - rewrite Z.geb_leb, Z.leb_antisym. reflexivity.
  - apply Heq.
  - apply Heq.
  - apply Z.leb_refl.
  - rewrite !Z.leb_le. intros H1 H2. apply Hinj. lia.
  - rewrite !Z.leb_le. lia.
  - rewrite !Z.leb_le. lia.
  - rewrite Z.ltb_lt in *. rewrite Z.leb_le. lia.
  - rewrite Z.ltb_lt in *. rewrite <- Hinj. lia.
  - rewrite Z.ltb_lt, Z.leb_le, <- Hinj. lia.
Qed.

Lemma ordering_is_big_endian_numeric_witness :
  let a := [0; 255; 3] in
  let b := [1; 0; 0] in
  let c := [1; 0; 1] in
  FixedHash_lt 3 a b = true /\ FixedHash_le LittleEndian 3 b c = true.
Proof.
  intros a b c.
  destruct (ordering_is_big_endian_numeric LittleEndian 3 a b c)
    as (_ & H1 & _); [subst a b c; solve_wf..|].
  destruct (ordering_is_big_endian_numeric LittleEndian 3 b c a)
    as (_ & _ & H2 & _); [subst a b c; solve_wf..|].
  split; [rewrite H1|rewrite H2]; reflexivity.
Defined.

(** ** Increment *)

Lemma insert_middle (l1 l2 : list Z) (x y : Z) :
  <[length l1 := y]> (l1 ++ x :: l2) = l1 ++ y :: l2.
Proof.
  rewrite <- (Nat.add_0_r (length l1)). apply (insert_app_r l1 (x :: l2) 0%nat y).
Qed.

Lemma pow256_succ (n : nat) :
  2 ^ (8 * Z.of_nat (S n)) = 2 ^ (8 * Z.of_nat n) * 256.
Proof.
  rewrite Nat2Z.inj_succ.
  replace (8 * Z.succ (Z.of_nat n)) with (8 * Z.of_nat n + 8) by lia.
  rewrite Z.pow_add_r by lia. reflexivity.
Qed.

Lemma incr_loop_value (pre suf : list Z) :
  Forall is_byte pre ->
  exists pre',
    incr_loop (length pre) (pre ++ suf) = pre' ++ suf
    /\ length pre' = length pre
    /\ Forall is_byte pre'
    /\ be_value pre' = (be_value pre + 1) mod 2 ^ (8 * Z.of_nat (length pre)).
Proof.
  revert suf. induction pre as [|x pre IH] using rev_ind; intros suf Hpre.
  - exists []. repeat split; try constructor.
  - apply Forall_app in Hpre as [Hpre Hx]. apply Forall_cons in Hx as [Hx _].
    rewrite length_app, Nat.add_comm. cbn [length Nat.add incr_loop].
    rewrite <- app_assoc. cbn [app].
    rewrite (list_lookup_total_middle pre suf x) by reflexivity.
    rewrite insert_middle.
    pose proof (be_value_range pre Hpre) as Rp.
    assert (Hpos : 0 < 2 ^ (8 * Z.of_nat (length pre))) by (apply Z.pow_pos_nonneg; lia).
    rewrite pow256_succ, be_value_snoc.
    unfold is_byte in Hx.
    destruct (Z.eqb_spec (wrap8 (x + 1)) 0) as [Hz|Hnz].
    + (* the byte was 0xff: carry into the bytes before it *)
      assert (x = 255) as ->.
      { unfold wrap8, wrap in Hz. change (2 ^ 8) with 256 in Hz.
        destruct (Z.eq_dec x 255); [assumption|].
        rewrite Z.mod_small in Hz by lia. lia. }
      rewrite Hz.
      destruct (IH (0 :: suf) Hpre) as (pre' & Heq & Hlen & Hb & Hv).
      exists (pre' ++ [0]). rewrite Heq, <- app_assoc. cbn [app].
      repeat split.
      * rewrite !length_app, Hlen. simpl. lia.
      * apply Forall_app. split; [assumption|].
        constructor; [unfold is_byte; lia|constructor].
      * rewrite be_value_snoc, Hv.
        replace (be_value pre * 256 + 255 + 1) with ((be_value pre + 1) * 256) by ring.
        rewrite Z.mul_mod_distr_r by lia. ring.
    + (* no carry: the loop stops *)
      assert (Hx' : x <> 255) by (intros ->; apply Hnz; reflexivity).
      rewrite (wrap8_byte (x + 1)) by (unfold is_byte; lia).
      exists (pre ++ [x + 1]). rewrite <- app_assoc. cbn [app].
      repeat split.
      * rewrite !length_app. simpl. lia.
      * apply Forall_app. split; [assumption|].
        constructor; [unfold is_byte; lia|constructor].
      * rewrite be_value_snoc. rewrite Z.mod_small by nia. ring.
Qed.

Lemma be_value_replicate_0 (n : nat) : be_value (replicate n 0) = 0.
Proof.
  induction n as [|n IH]; [reflexivity|].
  cbn [replicate]. rewrite be_value_cons, IH. lia.
Qed.

Lemma Forall_replicate_byte (n : nat) (b : Z) :
  is_byte b -> Forall is_byte (replicate n b).
Proof. intros Hb. induction n; simpl; constructor; assumption. Qed.

Lemma be_value_replicate_255 (n : nat) :
  be_value (replicate n 255) = 2 ^ (8 * Z.of_nat n) - 1.
Proof.
  induction n as [|n IH]; [reflexivity|].
  cbn [replicate]. rewrite be_value_cons, IH, length_replicate.
  rewrite pow256_succ. lia.
Qed.

Lemma FixedHash_incr_value (N : Z) (v : list Z) :
  wf N v ->
  wf N (FixedHash_incr N v)
  /\ be_value (FixedHash_incr N v) = (be_value v + 1) mod 2 ^ (N * 8).
Proof.
  intros [Hlen Hb]. unfold FixedHash_incr.
  replace (Z.to_nat N) with (length v) by lia.
  destruct (incr_loop_value v [] Hb) as (v' & Heq & Hl & Hb' & Hv).
  rewrite !app_nil_r in Heq. rewrite Heq. repeat split.
  - lia.
  - assumption.
  - rewrite Hv. f_equal. f_equal. lia.
Qed.

(** C3.  For every value [v] of size [N], [operator++] adds one to the
    big-endian unsigned number the [N] bytes denote, modulo [2^(N*8)]: the
    result is again an [N]-byte value and decodes to
    [(decoding of v + 1) mod 2^(N*8)].  The value of all [0xFF] bytes
    becomes the all-zero value.  The operator is a total function: it has
    no failure result. *)
Theorem incr_is_big_endian_successor (N : Z) (v : list Z) :
  wf N v ->
  wf N (FixedHash_incr N v)
  /\ fromBigEndian Bigint (FixedHash_incr N v)
     = (fromBigEndian Bigint v + 1) mod 2 ^ (N * 8)
  /\ FixedHash_incr N (replicate (Z.to_nat N) 0xff) = FixedHash_empty N.
Proof.
  intros Hv. destruct (FixedHash_incr_value N v Hv) as [Hwf Hval].
  split; [exact Hwf|]. split.
  - rewrite !fromBigEndian_bigint by (apply Hwf || apply Hv). exact Hval.
  - assert (Hff : wf N (replicate (Z.to_nat N) 255)).
    { destruct Hv as [Hlen _]. split; [rewrite length_replicate; lia|].
      apply Forall_replicate_byte. unfold is_byte. lia. }
    destruct (FixedHash_incr_value N _ Hff) as [[Hl Hb] Hval'].
    unfold FixedHash_empty. apply be_value_inj.
    + exact Hb.
    + apply Forall_replicate_byte. unfold is_byte. lia.
    + rewrite length_replicate. lia.
    + rewrite Hval', be_value_replicate_255, be_value_replicate_0.
      destruct Hv as [Hlen _].
      replace (8 * Z.of_nat (Z.to_nat N)) with (N * 8) by lia.
      replace (2 ^ (N * 8) - 1 + 1) with (2 ^ (N * 8)) by lia.
      apply Z.mod_same. apply Z.pow_nonzero; lia.
Qed.

Lemma incr_is_big_endian_successor_witness :
  FixedHash_incr 3 [0x12; 0xff; 0xff] = [0x13; 0; 0]
  /\ FixedHash_incr 3 [0xff; 0xff; 0xff] = [0; 0; 0].
Proof.
  destruct (incr_is_big_endian_successor 3 [0x12; 0xff; 0xff]) as (_ & _ & H);
    [solve_wf|].
  split; [reflexivity|exact H].
Defined.

(** ** Construction with alignment *)

Lemma take_S_insert (l : list Z) (i : nat) (x : Z) :
  (i < length l)%nat -> take (S i) (<[i := x]> l) = take i l ++ [x].
Proof.
  intros Hi. rewrite (take_S_r _ i x) by (apply list_lookup_insert_eq; exact Hi).
  rewrite take_insert_here. reflexivity.
Qed.

Lemma align_loop_left (k i : nat) (N srcSize sw : Z) _t (src m_data : list Z) :
  is_AlignRight _t = false ->
  (i + k <= length m_data)%nat -> (i + k <= length src)%nat ->
  align_loop k i N srcSize sw _t src m_data
  = take i m_data ++ take k (drop i src) ++ drop (i + k) m_data.
Proof.
  intros Ht. revert i m_data.
  induction k as [|k IH]; intros i m_data Hm Hs.
  - cbn [align_loop]. rewrite take_0, Nat.add_0_r. cbn [app].
    rewrite take_drop. reflexivity.
  - cbn [align_loop]. rewrite Ht, Nat2Z.id.
    rewrite IH by (rewrite ?length_insert; lia).
    rewrite take_S_insert by lia.
    rewrite drop_insert_lt by lia.
    rewrite (drop_lookup_total src i) by lia. rewrite firstn_cons.
    rewrite <- app_assoc. cbn [app].
    replace (S i + k)%nat with (i + S k)%nat by lia. reflexivity.
Qed.

Lemma align_loop_right (k i : nat) (N srcSize sw : Z) (src m_data : list Z) :
  0 <= N < 2 ^ 32 -> 0 <= srcSize < 2 ^ sw ->
  length m_data = Z.to_nat N -> length src = Z.to_nat srcSize ->
  (i + k <= length m_data)%nat -> (i + k <= length src)%nat ->
  align_loop k i N srcSize sw AlignRight src m_data
  = take (length m_data - i - k) m_data
    ++ take k (drop (length src - i - k) src)
    ++ drop (length m_data - i) m_data.
Proof.
  intros HN Hsz. revert i m_data.
  induction k as [|k IH]; intros i m_data Hlm Hls Hm Hs.
  - cbn [align_loop]. rewrite take_0, Nat.sub_0_r. cbn [app].
    rewrite take_drop. reflexivity.
  - cbn [align_loop is_AlignRight].
    assert (Hdi : Z.to_nat (wrap32 (wrap32 (N - 1) - Z.of_nat i))
                  = (length m_data - S i)%nat).
    { rewrite (wrap32_small (N - 1)) by lia. rewrite wrap32_small by lia. lia. }
    assert (Hsi : Z.to_nat (wrap sw (wrap sw (srcSize - 1) - Z.of_nat i))
                  = (length src - S i)%nat).
    { rewrite (wrap_small sw (srcSize - 1)) by lia. rewrite wrap_small by lia. lia. }
    rewrite Hdi, Hsi.
    rewrite IH by (rewrite ?length_insert; lia).
    rewrite length_insert.
    rewrite take_insert_ge by lia.
    rewrite drop_insert_here by lia.
    replace (S (length m_data - S i)) with (length m_data - i)%nat by lia.
    replace (length m_data - S i - k)%nat with (length m_data - i - S k)%nat by lia.
    replace (length src - S i - k)%nat with (length src - i - S k)%nat by lia.
    f_equal.
    rewrite (take_S_r _ k (src !!! (length src - S i)%nat)).
    + rewrite <- app_assoc. reflexivity.
    + rewrite lookup_drop.
      replace (length src - i - S k + k)%nat with (length src - S i)%nat by lia.
      apply list_lookup_lookup_total_lt. lia.
Qed.

Lemma FixedHash_from_hash_right (N M : Z) (_h : list Z) :
  0 <= N < 2 ^ 32 -> 0 <= M < 2 ^ 32 -> length _h = Z.to_nat M ->
  FixedHash_from_hash N M _h AlignRight
  = replicate (Z.to_nat N - Z.to_nat M) 0
    ++ drop (Z.to_nat M - Z.to_nat N) _h.
Proof.
  intros HN HM Hlen. unfold FixedHash_from_hash, FixedHash_empty.
  rewrite align_loop_right; rewrite ?length_replicate; try lia.
  rewrite Nat.sub_0_r, (drop_ge (replicate _ _))
    by (rewrite length_replicate; lia).
  rewrite app_nil_r, take_replicate.
  rewrite take_ge by (rewrite length_drop; lia).
  f_equal; f_equal; lia.
Qed.

(** C5.  For every 32-byte value [h], [right160 h] is the value the
    cross-size constructor [FixedHash<20>(h, AlignRight)] builds; both are
    the last 20 bytes of [h] (offsets 12 to 31), whatever the first 12
    bytes are. *)
Theorem right160_is_AlignRight_construction (h : list Z) :
  wf 32 h ->
  right160 h = FixedHash_from_hash 20 32 h AlignRight
  /\ right160 h = drop 12 h
  /\ wf 20 (right160 h)
  /\ (forall i : nat, (i < 20)%nat -> right160 h !!! i = h !!! (12 + i)%nat)
  /\ (forall h' : list Z, wf 32 h' -> drop 12 h' = drop 12 h ->
        right160 h' = right160 h).
Proof.
  intros [Hlen Hb].
  assert (Hr : forall x : list Z, Z.of_nat (length x) = 32 -> right160 x = drop 12 x).
  { intros x Hx. unfold right160, memcpy, FixedHash_empty.
    rewrite (drop_ge (replicate _ _)) by (rewrite length_replicate; lia).
    rewrite app_nil_r. apply take_ge. rewrite length_drop. lia. }
  repeat split.
  - rewrite Hr by assumption.
    rewrite FixedHash_from_hash_right by lia. reflexivity.
  - apply Hr. assumption.
  - rewrite Hr, length_drop by assumption. lia.
  - rewrite Hr by assumption. apply Forall_drop. exact Hb.
  - intros i Hi. rewrite Hr by assumption. apply lookup_total_drop.
  - intros h' [Hlen' _] Heq. rewrite !Hr by assumption. exact Heq.
Qed.

Lemma right160_is_AlignRight_construction_witness :
  let h := [1; 2; 3; 4; 5; 6; 7; 8; 9; 10; 11; 12; 13; 14; 15; 16;
            17; 18; 19; 20; 21; 22; 23; 24; 25; 26; 27; 28; 29; 30; 31; 32] in
  right160 h = FixedHash_from_hash 20 32 h AlignRight
  /\ right160 h = [13; 14; 15; 16; 17; 18; 19; 20; 21; 22;
                   23; 24; 25; 26; 27; 28; 29; 30; 31; 32].
Proof.
  intros h.
  destruct (right160_is_AlignRight_construction h) as (H1 & H2 & _);
    [subst h; solve_wf|].
  split; [exact H1|exact H2].
Defined.

Lemma FixedHash_from_bytes_at_spec (w N : Z) (m_data0 _b : list Z) _t :
  0 <= N < 2 ^ 32 -> 32 <= w <= 64 ->
  Z.of_nat (length _b) < 2 ^ w ->
  length m_data0 = Z.to_nat N ->
  FixedHash_from_bytes_at (Unsigned w) N m_data0 _b _t = from_bytes_spec N _b _t.
Proof.
  intros HN Hw Hlen Hm0.
  assert (H32 : 2 ^ 32 <= 2 ^ w) by (apply Z.pow_le_mono_r; lia).
  assert (H64 : 2 ^ w <= 2 ^ 64) by (apply Z.pow_le_mono_r; lia).
  unfold FixedHash_from_bytes_at, from_bytes_spec. cbn [cast].
  rewrite !wrap_small by lia.
  destruct (Z.eqb_spec (Z.of_nat (length _b)) N) as [Heq|Hne].
  - rewrite decide_True by lia. unfold memcpy.
    rewrite drop_0, take_ge by lia. rewrite drop_ge by lia. apply app_nil_r.
  - rewrite decide_False by lia. unfold FixedHash_empty.
    replace (Z.to_nat (Z.min (Z.of_nat (length _b)) N))
      with (Nat.min (length _b) (Z.to_nat N)) by lia.
    set (n := Z.to_nat N). set (c := Nat.min (length _b) n).
    destruct _t; cbn [is_FailIfDifferent negb].
    + rewrite align_loop_left; rewrite ?length_replicate; try reflexivity; try lia.
      rewrite take_0, drop_0, drop_replicate. reflexivity.
    + rewrite (align_loop_right c 0 N (Z.of_nat (length _b)) 64);
        rewrite ?length_replicate; try lia.
      rewrite !Nat.sub_0_r, take_replicate.
      rewrite (drop_ge (replicate _ _)) by (rewrite length_replicate; lia).
      rewrite app_nil_r, take_ge by (rewrite length_drop; lia).
      f_equal. f_equal. lia.
    + reflexivity.
Qed.

Lemma length_from_bytes_spec (N : Z) (_b : list Z) _t :
  length (from_bytes_spec N _b _t) = Z.to_nat N.
Proof.
  unfold from_bytes_spec. case_decide; [assumption|].
  destruct _t; rewrite ?length_app, ?length_replicate, ?length_take, ?length_drop; lia.
Qed.

(** X25.  On a byte sequence [_b] shorter than [2^32] the constructor
    from [bytes const&], and on one shorter than [2^64] the constructor from
    [bytesConstRef], gives [from_bytes_spec N _b _t] whatever the storage
    held before: [_b] itself when it has exactly [N] bytes, whatever the
    policy; otherwise the all-zero value under [FailIfDifferent], the first
    [min (length _b) N] bytes of [_b] followed by zeros under [AlignLeft],
    and zeros followed by the last [min (length _b) N] bytes of [_b] under
    [AlignRight].  The result has [N] bytes. *)
Theorem from_bytes_construction (N : Z) (m_data0 _b : list Z)
    (_t : ConstructFromHashType) :
  0 <= N < 2 ^ 32 -> length m_data0 = Z.to_nat N ->
  (Z.of_nat (length _b) < 2 ^ 32 ->
     FixedHash_from_bytes N m_data0 _b _t = from_bytes_spec N _b _t)
  /\ (Z.of_nat (length _b) < 2 ^ 64 ->
     FixedHash_from_bytesConstRef N m_data0 _b _t = from_bytes_spec N _b _t)
  /\ length (from_bytes_spec N _b _t) = Z.to_nat N
  /\ (Z.of_nat (length _b) = N -> from_bytes_spec N _b _t = _b)
  /\ (Z.of_nat (length _b) <> N ->
      from_bytes_spec N _b FailIfDifferent = FixedHash_empty N).
Proof.
  intros HN Hm0. split; [|split; [|split; [|split]]].
  - intros Hlen. apply FixedHash_from_bytes_at_spec; lia.
  - intros Hlen. apply FixedHash_from_bytes_at_spec; lia.
  - apply length_from_bytes_spec.
  - intros Heq. unfold from_bytes_spec. rewrite decide_True by lia. reflexivity.
  - intros Hne. unfold from_bytes_spec. rewrite decide_False by lia. reflexivity.
Qed.

Lemma from_bytes_construction_witness :
  FixedHash_from_bytes 4 [9; 9; 9; 9] [1; 2; 3; 4; 5; 6] AlignRight = [3; 4; 5; 6]
  /\ FixedHash_from_bytesConstRef 4 [9; 9; 9; 9] [1; 2] AlignLeft = [1; 2; 0; 0]
  /\ FixedHash_from_bytes 4 [9; 9; 9; 9] [1; 2] FailIfDifferent = [0; 0; 0; 0]
  /\ FixedHash_from_bytes 4 [9; 9; 9; 9] [1; 2; 3; 4] FailIfDifferent = [1; 2; 3; 4].
Proof.
  assert (HN : 0 <= 4 < 2 ^ 32) by lia.
  assert (Hm : length [9; 9; 9; 9] = Z.to_nat 4) by reflexivity.
  split; [|split; [|split]].
  - rewrite (proj1 (from_bytes_construction 4 [9; 9; 9; 9] [1; 2; 3; 4; 5; 6]
                      AlignRight HN Hm)) by (simpl; lia). reflexivity.
  - rewrite (proj1 (proj2 (from_bytes_construction 4 [9; 9; 9; 9] [1; 2]
                      AlignLeft HN Hm))) by (simpl; lia). reflexivity.
  - rewrite (proj1 (from_bytes_construction 4 [9; 9; 9; 9] [1; 2]
                      FailIfDifferent HN Hm)) by (simpl; lia). reflexivity.
  - rewrite (proj1 (from_bytes_construction 4 [9; 9; 9; 9] [1; 2; 3; 4]
                      FailIfDifferent HN Hm)) by (simpl; lia). reflexivity.
Defined.

Lemma from_bytes_long_sequence (n : nat) (m_data0 : list Z) :
  Z.of_nat n = 2 ^ 32 + 1 -> length m_data0 = 4%nat ->
  FixedHash_from_bytes 4 m_data0 (replicate n 1) AlignLeft = [1; 0; 0; 0]
  /\ FixedHash_from_bytesConstRef 4 m_data0 (replicate n 1) AlignLeft
     = [1; 1; 1; 1]
  /\ from_bytes_spec 4 (replicate n 1) AlignLeft = [1; 1; 1; 1].
Proof.
  intros Hn Hm0.
  assert (Hspec : from_bytes_spec 4 (replicate n 1) AlignLeft = [1; 1; 1; 1]).
  { unfold from_bytes_spec. cbv zeta. rewrite length_replicate.
    rewrite decide_False by lia.
    replace (Nat.min n (Z.to_nat 4)) with 4%nat by lia.
    rewrite take_replicate, (Nat.min_l 4 n) by lia. reflexivity. }
  split; [|split; [|exact Hspec]].
  - unfold FixedHash_from_bytes, FixedHash_from_bytes_at.
    rewrite length_replicate, Hn.
    change (2 ^ 32 + 1 =? 4) with false.
    change (cast (Unsigned 32) (2 ^ 32 + 1)) with 1.
    change (cast (Unsigned 32) 4) with 4.
    change (Z.to_nat (Z.min 1 4)) with 1%nat.
    cbn [is_FailIfDifferent negb].
    rewrite align_loop_left;
      [|reflexivity
       |unfold FixedHash_empty; rewrite length_replicate; lia
       |rewrite length_replicate; lia].
    rewrite drop_0, take_replicate, (Nat.min_l 1 n) by lia. reflexivity.
  - unfold FixedHash_from_bytesConstRef.
    rewrite FixedHash_from_bytes_at_spec; [exact Hspec|lia|lia| |exact Hm0].
    rewrite length_replicate, Hn. lia.
Qed.

(** C4.  The claim fails on the constructor from [bytes const&] when the
    byte sequence is longer than an [unsigned] can count.  For [N = 4],
    [AlignLeft] and [2^32 + 1] bytes [0x01], [std::min<unsigned>] narrows
    the length to 1 and a single byte is copied; the constructor from
    [bytesConstRef], which takes [std::min<size_t>], copies the
    [min (length, N) = 4] bytes the specification asks for. *)
Theorem from_bytes_narrows_long_length :
  let _b := replicate (Z.to_nat (2 ^ 32 + 1)) 1 in
  FixedHash_from_bytes 4 [0; 0; 0; 0] _b AlignLeft = [1; 0; 0; 0]
  /\ FixedHash_from_bytesConstRef 4 [0; 0; 0; 0] _b AlignLeft = [1; 1; 1; 1]
  /\ from_bytes_spec 4 _b AlignLeft = [1; 1; 1; 1].
Proof.
  intros _b. subst _b.
  apply (from_bytes_long_sequence (Z.to_nat (2 ^ 32 + 1)) [0; 0; 0; 0]);
    [apply Z2Nat.id; lia|reflexivity].
Qed.

(** ** First set bit *)

Lemma land_pow2 (d n : Z) :
  0 <= n -> Z.land d (2 ^ n) = if Z.testbit d n then 2 ^ n else 0.
Proof.
  intros Hn. apply Z.bits_inj'. intros m Hm.
  rewrite Z.land_spec, Z.pow2_bits_eqb by lia.
  destruct (Z.eqb_spec n m) as [->|Hne].
  - rewrite andb_true_r. destruct (Z.testbit d m) eqn:E.
    + rewrite Z.pow2_bits_true by lia. reflexivity.
    + rewrite Z.bits_0. reflexivity.
  - rewrite andb_false_r. destruct (Z.testbit d n).
    + rewrite Z.pow2_bits_false by lia. reflexivity.
    + rewrite Z.bits_0. reflexivity.
Qed.

Lemma byte_bit7 (d : Z) : is_byte d -> Z.testbit d 7 = (128 <=? d).
Proof.
  intros [Hlo Hhi]. destruct (Z.leb_spec 128 d) as [H|H].
  - apply Z.testbit_true; [lia|]. change (2 ^ 7) with 128.
    replace (d / 128) with 1; [reflexivity|].
    apply Z.div_unique with (r := d - 128); lia.
  - destruct (Z.eq_dec d 0) as [->|Hne]; [apply Z.bits_0|].
    apply Z.bits_above_log2; [lia|].
    assert (Z.log2 d < 7); [|lia]. apply Z.log2_lt_pow2; lia.
Qed.

Lemma firstBitSet_scan_spec (fuel m : nat) (ret d : Z) :
  (m <= fuel)%nat -> (m <= 8)%nat ->
  2 ^ (8 - Z.of_nat m) <= d < 256 ->
  0 <= ret -> ret + Z.of_nat m <= 2 ^ 32 ->
  exists k,
    0 <= k < Z.of_nat m
    /\ firstBitSet_scan fuel ret d = Some (ret + k)
    /\ Z.testbit d (7 - k) = true
    /\ (forall j, 0 <= j < k -> Z.testbit d (7 - j) = false).
Proof.
  revert m ret d. induction fuel as [|fuel IH]; intros m ret d Hm Hm8 Hd Hret Hov.
  - exfalso. assert (m = 0%nat) as -> by lia. simpl in Hd. lia.
  - cbn [firstBitSet_scan].
    assert (Hb : is_byte d).
    { split; [|lia]. assert (0 < 2 ^ (8 - Z.of_nat m)) by (apply Z.pow_pos_nonneg; lia). lia. }
    change 0x80 with (2 ^ 7). rewrite land_pow2, (byte_bit7 d Hb) by lia.
    assert (Hm1 : (1 <= m)%nat).
    { destruct m; [simpl in Hd; lia|lia]. }
    destruct (Z.leb_spec 128 d) as [Hhi|Hlo];
      [change (2 ^ 7 =? 0) with false|change (0 =? 0) with true]; cbn [negb].
    + exists 0. repeat split; try lia.
      * rewrite Z.add_0_r. reflexivity.
      * rewrite Z.sub_0_r, byte_bit7 by assumption. apply Z.leb_le. lia.
    + assert (Hm2 : (2 <= m)%nat).
      { destruct m as [|[|m]]; [simpl in Hd; lia| |lia].
        change (2 ^ (8 - Z.of_nat 1)) with 128 in Hd. lia. }
      assert (Hd2 : wrap8 (Z.shiftl d 1) = 2 * d).
      { rewrite Z.shiftl_mul_pow2 by lia. change (2 ^ 1) with 2.
        rewrite wrap8_byte by (unfold is_byte in *; lia). lia. }
      destruct (IH (m - 1)%nat (wrap32 (ret + 1)) (wrap8 (Z.shiftl d 1)))
        as (k & Hk & Hscan & Hset & Hclear).
      * lia.
      * lia.
      * rewrite Hd2. split; [|lia].
        replace (8 - Z.of_nat (m - 1)) with (8 - Z.of_nat m + 1) by lia.
        rewrite Z.pow_add_r by lia. lia.
      * unfold wrap32, wrap. apply Z.mod_pos_bound. lia.
      * rewrite wrap32_small by lia. lia.
      * rewrite wrap32_small in Hscan |- * by lia.
        assert (Hshift : forall i, 0 <= i -> Z.testbit (wrap8 (Z.shiftl d 1)) (i + 1)
                                    = Z.testbit d i).
        { intros i Hi. rewrite Hd2. change (2 * d) with (Z.double d).
          rewrite Z.double_bits. f_equal. lia. }
        exists (k + 1). repeat split; try lia.
        -- rewrite Hscan. f_equal. lia.
        -- rewrite <- Hset, <- Hshift by lia. f_equal. lia.
        -- intros j Hj. destruct (Z.eq_dec j 0) as [->|Hj0].
           ++ rewrite Z.sub_0_r, byte_bit7 by assumption. apply Z.leb_gt. lia.
           ++ rewrite <- (Hclear (j - 1)) by lia.
              rewrite <- Hshift by lia. f_equal. lia.
Qed.

Lemma bit_msb_cons_lt (d : Z) (l : list Z) (q : Z) :
  0 <= q < 8 -> bit_msb (d :: l) q = Z.testbit d (7 - q).
Proof.
  intros Hq. unfold bit_msb.
  rewrite Z.div_small, Z.mod_small by lia. reflexivity.
Qed.

Lemma bit_msb_cons_ge (d : Z) (l : list Z) (q : Z) :
  8 <= q -> bit_msb (d :: l) q = bit_msb l (q - 8).
Proof.
  intros Hq. unfold bit_msb.
  replace q with ((q - 8) + 1 * 8) at 1 2 by lia.
  rewrite Z.div_add, Z.mod_add by lia.
  assert (0 <= (q - 8) / 8) by (apply Z.div_pos; lia).
  replace (Z.to_nat ((q - 8) / 8 + 1)) with (S (Z.to_nat ((q - 8) / 8))) by lia.
  reflexivity.
Qed.

Lemma firstBitSet_loop_spec (fuel : nat) (l : list Z) (ret : Z) :
  (8 <= fuel)%nat -> Forall is_byte l ->
  0 <= ret -> ret + 8 * Z.of_nat (length l) < 2 ^ 32 ->
  exists r,
    firstBitSet_loop fuel l ret = Some (ret + r)
    /\ 0 <= r <= 8 * Z.of_nat (length l)
    /\ (forall q, 0 <= q < r -> bit_msb l q = false)
    /\ (r < 8 * Z.of_nat (length l) -> bit_msb l r = true).
Proof.
  intros Hfuel Hl. revert ret.
  induction Hl as [|d l Hd Hl IH]; intros ret Hret Hov.
  - exists 0. simpl. rewrite Z.add_0_r. repeat split; lia.
  - rewrite length_cons, Nat2Z.inj_succ in *. cbn [firstBitSet_loop].
    destruct (Z.eqb_spec d 0) as [->|Hnz]; cbn [negb].
    + destruct (IH (wrap32 (ret + 8))) as (r & Hr & Hrange & Hclear & Hset).
      * unfold wrap32, wrap. apply Z.mod_pos_bound. lia.
      * rewrite wrap32_small by lia. lia.
      * rewrite wrap32_small in Hr |- * by lia.
        exists (r + 8). repeat split; try lia.
        -- rewrite Hr. f_equal. lia.
        -- intros q Hq. destruct (Z_lt_le_dec q 8).
           ++ rewrite bit_msb_cons_lt by lia. apply Z.bits_0.
           ++ rewrite bit_msb_cons_ge by lia. apply Hclear. lia.
        -- intros Hlt. rewrite bit_msb_cons_ge by lia.
           replace (r + 8 - 8) with r by lia. apply Hset. lia.
    + unfold is_byte in Hd.
      assert (Hd1 : 2 ^ (8 - Z.of_nat 8) <= d < 256)
        by (change (2 ^ (8 - Z.of_nat 8)) with 1; lia).
      assert (Hov8 : ret + Z.of_nat 8 <= 2 ^ 32) by lia.
      destruct (firstBitSet_scan_spec fuel 8 ret d Hfuel (le_n 8) Hd1 Hret Hov8)
        as (k & Hk & Hscan & Hset & Hclear).
      exists k. repeat split; try lia.
      * exact Hscan.
      * intros q Hq. rewrite bit_msb_cons_lt by lia. apply Hclear. lia.
      * intros _. rewrite bit_msb_cons_lt by lia. exact Hset.
Qed.

Lemma bit_msb_all_zero (n : nat) (q : Z) :
  0 <= q < 8 * Z.of_nat n -> bit_msb (replicate n 0) q = false.
Proof.
  intros Hq. unfold bit_msb.
  pose proof (Z_div_mod_eq_full q 8) as Hdm.
  pose proof (Z.mod_pos_bound q 8 ltac:(lia)) as Hmod.
  rewrite lookup_total_replicate_2 by lia. apply Z.bits_0.
Qed.

Lemma bit_msb_only_last (n : nat) (q : Z) :
  0 <= q < 8 * Z.of_nat n + 8 ->
  bit_msb (replicate n 0 ++ [1]) q = (q =? 8 * Z.of_nat n + 7).
Proof.
  intros Hq. unfold bit_msb.
  pose proof (Z_div_mod_eq_full q 8) as Hdm.
  pose proof (Z.mod_pos_bound q 8 ltac:(lia)) as Hmod.
  destruct (decide (Z.to_nat (q / 8) < n)%nat) as [Hlt|Hge].
  - rewrite lookup_total_app_l by (rewrite length_replicate; exact Hlt).
    rewrite lookup_total_replicate_2 by exact Hlt.
    rewrite Z.bits_0. symmetry. apply Z.eqb_neq. lia.
  - rewrite list_lookup_total_middle by (rewrite length_replicate; lia).
    destruct (Z.eqb_spec q (8 * Z.of_nat n + 7)) as [Hq7|Hq7].
    + replace (7 - q mod 8) with 0 by lia. reflexivity.
    + change 1 with (2 ^ 0). apply Z.pow2_bits_false. lia.
Qed.

(** C9.  For every value [v] of size [N] (with [N * 8] a value of the
    result type [unsigned]), [firstBitSet] returns (once the inner loop is
    given the 8 iterations a byte can need) the 0-based index [r] of the
    first set bit, bits being numbered from the most significant bit of
    byte 0: no bit before [r] is set, and bit [r] is set unless
    [r = N * 8].  On the all-zero value the result is [N * 8]; on the
    value whose only set bit is the least significant bit of the last
    byte it is [N * 8 - 1]. *)
Theorem firstBitSet_first_set_bit (N : Z) (v : list Z) (fuel : nat) :
  wf N v -> N * 8 < 2 ^ 32 -> (8 <= fuel)%nat ->
  exists r,
    firstBitSet fuel v = Some r
    /\ 0 <= r <= N * 8
    /\ (forall q, 0 <= q < r -> bit_msb v q = false)
    /\ (r < N * 8 -> bit_msb v r = true)
    /\ (v = FixedHash_empty N -> r = N * 8)
    /\ (v = replicate (Z.to_nat (N - 1)) 0 ++ [1] -> r = N * 8 - 1).
Proof.
  intros [Hlen Hb] HN Hfuel.
  destruct (firstBitSet_loop_spec fuel v 0 Hfuel Hb) as (r & Hr & Hrange & Hclear & Hset);
    [lia..|].
  exists r. rewrite Z.add_0_l in Hr.
  split; [exact Hr|]. split; [lia|]. split; [exact Hclear|].
  split; [intros Hlt; apply Hset; lia|]. split.
  - intros ->. unfold FixedHash_empty in *.
    destruct (Z_lt_le_dec r (N * 8)) as [Hlt|Hge]; [|lia].
    rewrite bit_msb_all_zero in Hset by lia. discriminate Hset. lia.
  - intros ->. rewrite length_app, length_replicate in Hlen. simpl in Hlen.
    set (n := Z.to_nat (N - 1)) in *.
    assert (HNn : N = Z.of_nat n + 1) by lia.
    destruct (Z_lt_le_dec r (N * 8 - 1)) as [Hlt|Hge].
    + assert (Ht : bit_msb (replicate n 0 ++ [1]) r = true)
        by (apply Hset; rewrite length_app, length_replicate; simpl; lia).
      rewrite bit_msb_only_last in Ht by lia. apply Z.eqb_eq in Ht. lia.
    + destruct (Z.eq_dec r (N * 8 - 1)) as [Heq|Hne]; [exact Heq|].
      assert (Hf : bit_msb (replicate n 0 ++ [1]) (N * 8 - 1) = false)
        by (apply Hclear; lia).
      rewrite bit_msb_only_last in Hf by lia. apply Z.eqb_neq in Hf. lia.
Qed.

Lemma firstBitSet_first_set_bit_witness :
  firstBitSet 8 [0; 0; 0x1a; 0xff] = Some 19
  /\ firstBitSet 8 [0; 0; 0; 0] = Some 32
  /\ firstBitSet 8 [0; 0; 0; 1] = Some 31.
Proof.
  assert (H32 : 4 * 8 < 2 ^ 32) by lia.
  destruct (firstBitSet_first_set_bit 4 [0; 0; 0; 0] 8) as (r & Hr & _ & _ & _ & Hz & _);
    [solve_wf|exact H32|lia|].
  destruct (firstBitSet_first_set_bit 4 [0; 0; 0; 1] 8) as (r' & Hr' & _ & _ & _ & _ & Hl);
    [solve_wf|exact H32|lia|].
  split; [reflexivity|]. split.
  - rewrite Hr, (Hz eq_refl). reflexivity.
  - rewrite Hr', (Hl eq_refl). reflexivity.
Defined.

Lemma firstBitSet_loop_zeros (fuel n : nat) (ret : Z) :
  0 <= ret < 2 ^ 32 ->
  firstBitSet_loop fuel (replicate n 0) ret
  = Some (wrap32 (ret + 8 * Z.of_nat n)).
Proof.
  revert ret. induction n as [|n IH]; intros ret Hret.
  - cbn [replicate firstBitSet_loop].
    replace (ret + 8 * Z.of_nat 0) with ret by lia.
    rewrite wrap32_small by lia. reflexivity.
  - cbn [replicate firstBitSet_loop]. change (0 =? 0) with true. cbn [negb].
    rewrite IH by (unfold wrap32, wrap; apply Z.mod_pos_bound; lia).
    unfold wrap32, wrap. rewrite Zplus_mod_idemp_l. f_equal. f_equal. lia.
Qed.

(** The index is an [unsigned]: on the all-zero value of [2^29] bytes the
    count of [N * 8 = 2^32] bits wraps, and [firstBitSet] returns 0, not
    [N * 8]. *)
Lemma firstBitSet_sentinel_wraps :
  wf (2 ^ 29) (FixedHash_empty (2 ^ 29))
  /\ firstBitSet 8 (FixedHash_empty (2 ^ 29)) = Some 0
  /\ firstBitSet 8 (FixedHash_empty (2 ^ 29)) <> Some (2 ^ 29 * 8).
Proof.
  assert (H : firstBitSet 8 (FixedHash_empty (2 ^ 29)) = Some 0).
  { unfold firstBitSet, FixedHash_empty.
    rewrite firstBitSet_loop_zeros by lia.
    rewrite Z2Nat.id by lia. reflexivity. }
  split; [|split; [exact H|rewrite H; discriminate]].
  unfold FixedHash_empty. split.
  - rewrite length_replicate. apply Z2Nat.id. lia.
  - apply Forall_replicate_byte. unfold is_byte. lia.
Qed.

(** ** Bloom filter parts *)

Lemma size_log2 (q : positive) : Z.pos (Pos.size q) = 1 + Z.log2 (Z.pos q).
Proof. destruct q; simpl; lia. Qed.

Lemma StaticLog2_pos_log2 (p : positive) : StaticLog2_pos p = Z.log2 (Z.pos p).
Proof.
  induction p as [p IH|p IH|]; cbn [StaticLog2_pos]; [| |reflexivity];
    rewrite IH; symmetry; apply size_log2.
Qed.

Lemma StaticLog2_log2 (n : Z) : 0 < n -> StaticLog2 n = Some (Z.log2 n).
Proof.
  intros Hn. destruct n as [|p|p]; try lia.
  cbn [StaticLog2]. rewrite StaticLog2_pos_log2. reflexivity.
Qed.

Lemma land_pow2_pred (e : Z) : 0 <= e -> Z.land (2 ^ e) (2 ^ e - 1) = 0.
Proof.
  intros He. replace (2 ^ e - 1) with (Z.ones e) by (rewrite Z.ones_equiv; lia).
  apply Z.bits_inj'. intros n Hn.
  rewrite Z.land_spec, Z.bits_0, Z.pow2_bits_eqb by lia.
  destruct (Z.eqb_spec e n) as [->|Hne]; [|reflexivity].
  rewrite Z.ones_spec_high by lia. reflexivity.
Qed.

(** The constants of [bloomPart] when [M = 2^e]. *)
Lemma bloom_constants (e : Z) :
  0 <= e <= 28 ->
  let M := 2 ^ e in
  M * 8 = 2 ^ (e + 3)
  /\ 8 <= M * 8 < 2 ^ 32
  /\ Z.log2 (M * 8) = e + 3
  /\ 1 <= (Z.log2 (M * 8) + 7) / 8 <= 4
  /\ M * 8 <= 2 ^ (8 * ((Z.log2 (M * 8) + 7) / 8)).
Proof.
  intros He M. subst M.
  assert (H8 : 2 ^ e * 8 = 2 ^ (e + 3)) by (rewrite Z.pow_add_r by lia; reflexivity).
  assert (Hlog : Z.log2 (2 ^ e * 8) = e + 3) by (rewrite H8; apply Z.log2_pow2; lia).
  assert (Hlo : 2 ^ 3 <= 2 ^ (e + 3)) by (apply Z.pow_le_mono_r; lia).
  assert (Hhi : 2 ^ (e + 3) <= 2 ^ 31) by (apply Z.pow_le_mono_r; lia).
  rewrite Hlog.
  pose proof (Z_div_mod_eq_full (e + 3 + 7) 8) as Hdm.
  pose proof (Z.mod_pos_bound (e + 3 + 7) 8 ltac:(lia)) as Hmod.
  repeat split; try lia.
  rewrite H8. apply Z.pow_le_mono_r; lia.
Qed.

(** [index_loop] reads [j] bytes as a big-endian number; four bytes fit an
    [unsigned]. *)
Lemma index_loop_value (j : nat) (index : Z) (p : nat) (v : list Z) :
  Forall is_byte v -> (p + j <= length v)%nat -> (j <= 4)%nat ->
  0 <= index < 2 ^ (8 * (4 - Z.of_nat j)) ->
  index_loop j index p v
  = (fold_left (fun r b => r * 256 + b) (take j (drop p v)) index, (p + j)%nat).
Proof.
  intros Hv. revert index p.
  induction j as [|j IH]; intros index p Hp Hj Hidx.
  - cbn [index_loop]. rewrite take_0, Nat.add_0_r. reflexivity.
  - cbn [index_loop].
    assert (Hb : is_byte (v !!! p)).
    { apply Forall_lookup_total_1; [exact Hv|lia]. }
    assert (Hpow : 2 ^ (8 * (4 - Z.of_nat j)) = 2 ^ (8 * (4 - Z.of_nat (S j))) * 256).
    { replace (8 * (4 - Z.of_nat j)) with (8 * (4 - Z.of_nat (S j)) + 8) by lia.
      rewrite Z.pow_add_r by lia. reflexivity. }
    assert (Hle : 2 ^ (8 * (4 - Z.of_nat j)) <= 2 ^ 32) by (apply Z.pow_le_mono_r; lia).
    assert (Hsh : wrap32 (Z.shiftl index 8) = Z.shiftl index 8).
    { apply wrap32_small. rewrite Z.shiftl_mul_pow2 by lia. change (2 ^ 8) with 256. lia. }
    rewrite Hsh, lor_shiftl8 by exact Hb.
    rewrite IH; [|lia|lia|unfold is_byte in Hb; lia].
    rewrite (drop_lookup_total v p) by lia. rewrite firstn_cons. cbn [fold_left].
    f_equal. lia.
Qed.

Lemma lor_is_byte (a b : Z) : is_byte a -> is_byte b -> is_byte (Z.lor a b).
Proof.
  intros [Ha Ha'] [Hb Hb']. split; [apply Z.lor_nonneg; lia|].
  destruct (Z.eq_dec (Z.lor a b) 0) as [->|Hne]; [lia|].
  assert (Hpos : 0 < Z.lor a b).
  { assert (0 <= Z.lor a b) by (apply Z.lor_nonneg; lia). lia. }
  change 256 with (2 ^ 8). apply Z.log2_lt_pow2; [exact Hpos|].
  rewrite Z.log2_lor by lia.
  assert (La : Z.log2 a < 8).
  { destruct (Z.eq_dec a 0) as [->|]; [simpl; lia|]. apply Z.log2_lt_pow2; lia. }
  assert (Lb : Z.log2 b < 8).
  { destruct (Z.eq_dec b 0) as [->|]; [simpl; lia|]. apply Z.log2_lt_pow2; lia. }
  lia.
Qed.

Lemma pow2_is_byte (k : Z) : 0 <= k < 8 -> is_byte (2 ^ k).
Proof.
  intros Hk. split; [apply Z.pow_nonneg; lia|].
  change 256 with (2 ^ 8). apply Z.pow_lt_mono_r; lia.
Qed.

Lemma pick_index_range (e : Z) (v : list Z) (j : nat) :
  0 <= e -> 0 <= pick_index (2 ^ e) v j < 2 ^ e * 8.
Proof.
  intros He. unfold pick_index.
  replace (2 ^ e * 8 - 1) with (Z.ones (e + 3))
    by (rewrite Z.ones_equiv, Z.pow_add_r by lia; change (2 ^ 3) with 8; lia).
  rewrite Z.land_ones by lia.
  replace (2 ^ e * 8) with (2 ^ (e + 3)) by (rewrite Z.pow_add_r by lia; reflexivity).
  apply Z.mod_pos_bound. apply Z.pow_pos_nonneg; lia.
Qed.

(** Where a pick lands: a byte of the result and a bit of that byte. *)
Lemma pick_position (M index : Z) :
  0 < M -> 0 <= index < M * 8 ->
  0 <= M - 1 - index / 8 < M /\ 0 <= index mod 8 < 8.
Proof.
  intros HM Hidx.
  pose proof (Z_div_mod_eq_full index 8). pose proof (Z.mod_pos_bound index 8 ltac:(lia)).
  lia.
Qed.

Lemma set_bit_wf (M index : Z) (ret : list Z) :
  0 < M -> 0 <= index < M * 8 ->
  length ret = Z.to_nat M -> Forall is_byte ret ->
  length (set_bit M ret index) = Z.to_nat M
  /\ Forall is_byte (set_bit M ret index).
Proof.
  intros HM Hidx Hlen Hb. unfold set_bit.
  destruct (pick_position M index HM Hidx) as [Hpos Hbit].
  split; [rewrite length_insert; exact Hlen|].
  apply Forall_insert; [exact Hb|].
  apply lor_is_byte; [|apply pow2_is_byte; exact Hbit].
  apply Forall_lookup_total_1; [exact Hb|lia].
Qed.

Lemma fold_set_bit_wf (M : Z) (idx : nat -> Z) (js : list nat) (ret : list Z) :
  0 < M -> (forall j, 0 <= idx j < M * 8) ->
  length ret = Z.to_nat M -> Forall is_byte ret ->
  length (fold_left (fun r j => set_bit M r (idx j)) js ret) = Z.to_nat M
  /\ Forall is_byte (fold_left (fun r j => set_bit M r (idx j)) js ret).
Proof.
  intros HM Hidx. revert ret.
  induction js as [|j js IH]; intros ret Hlen Hb; [split; assumption|].
  cbn [fold_left].
  destruct (set_bit_wf M (idx j) ret HM (Hidx j) Hlen Hb) as [Hl' Hb'].
  apply IH; assumption.
Qed.

(** The loop of [bloomPart] performs the picks the specification
    describes, one after the other. *)
Lemma pick_loop_spec (i j0 : nat) (e : Z) (v ret : list Z) :
  0 <= e <= 28 ->
  let M := 2 ^ e in
  let bpp := bytesPerPick M in
  Forall is_byte v -> ((j0 + i) * bpp <= length v)%nat ->
  length ret = Z.to_nat M -> Forall is_byte ret ->
  pick_loop i M (wrap32 (wrap32 (M * 8) - 1)) bpp (j0 * bpp) v ret
  = fold_left (fun r j => set_bit M r (pick_index M v j)) (seq j0 i) ret.
Proof.
  intros He M bpp Hv.
  destruct (bloom_constants e He) as (H8 & Hbits & Hlog & Hbytes & _).
  fold M in H8, Hbits, Hlog, Hbytes.
  assert (HM : 0 < M) by (apply Z.pow_pos_nonneg; lia).
  assert (Hbpp : (1 <= bpp <= 4)%nat) by (unfold bpp, bytesPerPick; lia).
  assert (Hmask : wrap32 (wrap32 (M * 8) - 1) = M * 8 - 1).
  { rewrite (wrap32_small (M * 8)) by lia. apply wrap32_small. lia. }
  rewrite Hmask.
  revert j0 ret. induction i as [|i IH]; intros j0 ret Hp Hlen Hret; [reflexivity|].
  cbn [pick_loop seq fold_left].
  rewrite index_loop_value; [|exact Hv|nia|lia|].
  2:{ split; [lia|]. apply Z.pow_pos_nonneg; lia. }
  fold (be_value (take bpp (drop (j0 * bpp) v))).
  change (Z.land (be_value (take bpp (drop (j0 * bpp) v))) (M * 8 - 1))
    with (pick_index M v j0).
  pose proof (pick_index_range e v j0 ltac:(lia)) as Hidx. fold M in Hidx.
  destruct (pick_position M _ HM Hidx) as [Hpos Hbit].
  set (index := pick_index M v j0) in *.
  assert (Hw : wrap32 (wrap32 (M - 1) - index / 8) = M - 1 - index / 8).
  { rewrite (wrap32_small (M - 1)) by lia. apply wrap32_small. lia. }
  rewrite Hw, Z.shiftl_1_l.
  rewrite wrap8_byte.
  2:{ apply lor_is_byte; [|apply pow2_is_byte; exact Hbit].
      apply Forall_lookup_total_1; [exact Hret|lia]. }
  fold (set_bit M ret index).
  destruct (set_bit_wf M index ret HM Hidx Hlen Hret) as [Hl' Hb'].
  replace (j0 * bpp + bpp)%nat with (S j0 * bpp)%nat by lia.
  apply IH; [lia|exact Hl'|exact Hb'].
Qed.

Lemma bloomPart_spec (P M N e : Z) (v : list Z) :
  wf N v -> M = 2 ^ e -> 0 <= e <= 28 -> 0 <= P ->
  P * Z.of_nat (bytesPerPick M) <= N -> N < 2 ^ 32 ->
  bloomPart P M N v = Some (bloom_spec P M v).
Proof.
  intros [Hlen Hv] -> He HP HPN HN.
  destruct (bloom_constants e He) as (H8 & Hbits & Hlog & Hbytes & _).
  assert (HM : 0 < 2 ^ e) by (apply Z.pow_pos_nonneg; lia).
  unfold bloomPart, bloom_spec.
  rewrite (wrap32_small (2 ^ e * 8)) at 1 by lia.
  rewrite StaticLog2_log2 by lia.
  unfold bytesPerPick in HPN. rewrite Z2Nat.id in HPN by lia.
  rewrite (wrap32_small (2 ^ e - 1)) by lia.
  rewrite land_pow2_pred, (wrap32_small (P * _)) by lia.
  rewrite Z.eqb_refl. cbn [andb].
  rewrite (proj2 (Z.leb_le _ _)) by exact HPN.
  f_equal. unfold FixedHash_empty.
  change (Z.to_nat ((Z.log2 (2 ^ e * 8) + 7) / 8)) with (bytesPerPick (2 ^ e)).
  change 0%nat with (0 * bytesPerPick (2 ^ e))%nat at 1.
  apply pick_loop_spec.
  - exact He.
  - exact Hv.
  - unfold bytesPerPick. nia.
  - apply length_replicate.
  - apply Forall_replicate_byte. unfold is_byte. lia.
Qed.

(** *** Which bits a pick sets *)

Lemma set_bit_testbit (M index : Z) (ret : list Z) (a : nat) (k : Z) :
  0 < M -> 0 <= index < M * 8 -> length ret = Z.to_nat M ->
  0 <= k ->
  Z.testbit (set_bit M ret index !!! a) k
  = Z.testbit (ret !!! a) k
    || ((Z.of_nat a =? M - 1 - index / 8) && (k =? index mod 8)).
Proof.
  intros HM Hidx Hlen Hk. unfold set_bit.
  destruct (pick_position M index HM Hidx) as [Hpos Hbit].
  destruct (Z.eqb_spec (Z.of_nat a) (M - 1 - index / 8)) as [Ha|Ha].
  - replace (Z.to_nat (M - 1 - index / 8)) with a by lia.
    rewrite list_lookup_total_insert_eq by lia.
    rewrite Z.lor_spec, Z.pow2_bits_eqb by lia.
    rewrite (Z.eqb_sym k). reflexivity.
  - rewrite list_lookup_total_insert_ne by lia.
    rewrite orb_false_r. reflexivity.
Qed.

Lemma fold_set_bit_testbit (M : Z) (idx : nat -> Z) (js : list nat)
    (ret : list Z) (a : nat) (k : Z) :
  0 < M -> (forall j, 0 <= idx j < M * 8) ->
  length ret = Z.to_nat M -> Forall is_byte ret -> 0 <= k ->
  Z.testbit (fold_left (fun r j => set_bit M r (idx j)) js ret !!! a) k
  = Z.testbit (ret !!! a) k
    || existsb (fun j => (Z.of_nat a =? M - 1 - idx j / 8) && (k =? idx j mod 8)) js.
Proof.
  intros HM Hidx. revert ret.
  induction js as [|j js IH]; intros ret Hlen Hb Hk.
  - cbn [fold_left existsb]. rewrite orb_false_r. reflexivity.
  - cbn [fold_left existsb].
    destruct (set_bit_wf M (idx j) ret HM (Hidx j) Hlen Hb) as [Hl' Hb'].
    rewrite IH by assumption.
    rewrite set_bit_testbit by (assumption || apply Hidx).
    rewrite orb_assoc. reflexivity.
Qed.

(** *** How many bits a pick sets *)

Lemma bit_index_cases (k : Z) :
  0 <= k < 8 ->
  k = 0 \/ k = 1 \/ k = 2 \/ k = 3 \/ k = 4 \/ k = 5 \/ k = 6 \/ k = 7.
Proof. lia. Qed.

Lemma popcount_byte_lor_pow2 (b k : Z) :
  0 <= k < 8 ->
  popcount_byte (Z.lor b (2 ^ k))
  = popcount_byte b + (if Z.testbit b k then 0 else 1).
Proof.
  intros Hk. unfold popcount_byte. cbn [fold_right].
  rewrite !Z.lor_spec, !Z.pow2_bits_eqb by lia.
  destruct (bit_index_cases k Hk) as [->|[->|[->|[->|[->|[->|[->| ->]]]]]]];
    cbn [Z.eqb Pos.eqb]; rewrite ?orb_false_r, ?orb_true_r;
    match goal with |- context [if Z.testbit b ?c then _ else _] =>
      destruct (Z.testbit b c) end;
    cbn [Z.b2z]; lia.
Qed.

Lemma popcount_byte_testbit (b k : Z) :
  0 <= k < 8 -> Z.testbit b k = true -> 1 <= popcount_byte b.
Proof.
  intros Hk Ht. unfold popcount_byte. cbn [fold_right].
  assert (Hnn : forall j, 0 <= Z.b2z (Z.testbit b j))
    by (intros j; destruct (Z.testbit b j); simpl; lia).
  pose proof (Hnn 0). pose proof (Hnn 1). pose proof (Hnn 2). pose proof (Hnn 3).
  pose proof (Hnn 4). pose proof (Hnn 5). pose proof (Hnn 6). pose proof (Hnn 7).
  destruct (bit_index_cases k Hk) as [->|[->|[->|[->|[->|[->|[->| ->]]]]]]];
    rewrite Ht in *; cbn [Z.b2z] in *; lia.
Qed.

Lemma popcount_byte_nonneg (b : Z) : 0 <= popcount_byte b.
Proof.
  unfold popcount_byte. cbn [fold_right].
  assert (Hnn : forall j, 0 <= Z.b2z (Z.testbit b j))
    by (intros j; destruct (Z.testbit b j); simpl; lia).
  pose proof (Hnn 0). pose proof (Hnn 1). pose proof (Hnn 2). pose proof (Hnn 3).
  pose proof (Hnn 4). pose proof (Hnn 5). pose proof (Hnn 6). pose proof (Hnn 7).
  lia.
Qed.

Lemma popcount_nonneg (l : list Z) : 0 <= popcount l.
Proof.
  induction l as [|b l IH]; [simpl; lia|].
  cbn [popcount fold_right]. fold (popcount l).
  pose proof (popcount_byte_nonneg b). lia.
Qed.

Lemma popcount_insert (l : list Z) (i : nat) (y : Z) :
  (i < length l)%nat ->
  popcount (<[i := y]> l) = popcount l - popcount_byte (l !!! i) + popcount_byte y.
Proof.
  revert i. induction l as [|b l IH]; intros [|i] Hi; simpl in Hi; try lia.
  - cbn [popcount fold_right]. change ((b :: l) !!! 0%nat) with b.
    cbn [insert list_insert popcount fold_right]. lia.
  - change ((b :: l) !!! S i) with (l !!! i).
    change (<[S i := y]> (b :: l)) with (b :: <[i := y]> l).
    cbn [popcount fold_right]. fold (popcount (<[i := y]> l)). fold (popcount l).
    rewrite IH by lia. lia.
Qed.

Lemma popcount_ge_lookup (l : list Z) (i : nat) :
  (i < length l)%nat -> popcount_byte (l !!! i) <= popcount l.
Proof.
  revert i. induction l as [|b l IH]; intros [|i] Hi; simpl in Hi; try lia.
  - change ((b :: l) !!! 0%nat) with b. cbn [popcount fold_right].
    fold (popcount l). pose proof (popcount_nonneg l). lia.
  - change ((b :: l) !!! S i) with (l !!! i). cbn [popcount fold_right].
    fold (popcount l). pose proof (IH i ltac:(lia)). pose proof (popcount_byte_nonneg b). lia.
Qed.

Lemma popcount_replicate_0 (n : nat) : popcount (replicate n 0) = 0.
Proof.
  induction n as [|n IH]; [reflexivity|].
  cbn [replicate popcount fold_right]. fold (popcount (replicate n 0)).
  rewrite IH. reflexivity.
Qed.

Lemma popcount_set_bit (M index : Z) (ret : list Z) :
  0 < M -> 0 <= index < M * 8 -> length ret = Z.to_nat M ->
  popcount ret <= popcount (set_bit M ret index) <= popcount ret + 1
  /\ 1 <= popcount (set_bit M ret index).
Proof.
  intros HM Hidx Hlen. unfold set_bit.
  destruct (pick_position M index HM Hidx) as [Hpos Hbit].
  set (pos := Z.to_nat (M - 1 - index / 8)).
  assert (Hp : (pos < length ret)%nat) by lia.
  rewrite popcount_insert by exact Hp.
  rewrite popcount_byte_lor_pow2 by exact Hbit.
  pose proof (popcount_ge_lookup ret pos Hp) as Hge.
  destruct (Z.testbit (ret !!! pos) (index mod 8)) eqn:Et.
  - pose proof (popcount_byte_testbit _ _ Hbit Et). lia.
  - pose proof (popcount_byte_nonneg (ret !!! pos)). lia.
Qed.

Lemma fold_set_bit_popcount (M : Z) (idx : nat -> Z) (js : list nat) (ret : list Z) :
  0 < M -> (forall j, 0 <= idx j < M * 8) ->
  length ret = Z.to_nat M -> Forall is_byte ret ->
  let r := fold_left (fun r j => set_bit M r (idx j)) js ret in
  popcount ret <= popcount r <= popcount ret + Z.of_nat (length js)
  /\ (js <> [] -> 1 <= popcount r).
Proof.
  intros HM Hidx. revert ret.
  induction js as [|j js IH]; intros ret Hlen Hb r; subst r.
  - cbn [fold_left length]. split; [lia|congruence].
  - cbn [fold_left]. rewrite length_cons, Nat2Z.inj_succ.
    destruct (set_bit_wf M (idx j) ret HM (Hidx j) Hlen Hb) as [Hl' Hb'].
    destruct (popcount_set_bit M (idx j) ret HM (Hidx j) Hlen) as [Hstep Hone].
    destruct (IH _ Hl' Hb') as [Hrange _]. cbv zeta in Hrange.
    split; [lia|]. intros _. lia.
Qed.

Lemma pow2_exp_bound (e : Z) : 0 <= e -> 2 ^ e * 8 < 2 ^ 32 -> e <= 28.
Proof.
  intros He Hlt. destruct (Z_le_gt_dec e 28) as [Hle|Hgt]; [exact Hle|].
  assert (2 ^ 29 <= 2 ^ e) by (apply Z.pow_le_mono_r; lia). lia.
Qed.

Lemma existsb_seq (f : nat -> bool) (n : nat) :
  existsb f (seq 0 n) = true <-> exists j, (j < n)%nat /\ f j = true.
Proof.
  rewrite existsb_exists. split.
  - intros (j & Hin & Hf). apply in_seq in Hin. exists j. split; [lia|exact Hf].
  - intros (j & Hj & Hf). exists j. split; [apply in_seq; lia|exact Hf].
Qed.

Lemma bloom_spec_wf (P e : Z) (v : list Z) :
  0 <= e -> wf (2 ^ e) (bloom_spec P (2 ^ e) v).
Proof.
  intros He.
  assert (HM : 0 < 2 ^ e) by (apply Z.pow_pos_nonneg; lia).
  destruct (fold_set_bit_wf (2 ^ e) (pick_index (2 ^ e) v) (seq 0 (Z.to_nat P))
              (replicate (Z.to_nat (2 ^ e)) 0) HM) as [Hl Hb].
  - intros j. apply pick_index_range. exact He.
  - apply length_replicate.
  - apply Forall_replicate_byte. unfold is_byte. lia.
  - split; [unfold bloom_spec; lia|exact Hb].
Qed.

(** C1.  For a source value [v] of size [N] and parameters with [M] a
    power of two and [P * bytesPerPick <= N] (sizes being values of
    [unsigned], [M * 8] included), [bloomPart<P, M>] returns an [M]-byte
    value [r], the one the specification describes ([bloom_spec]):
    [bytesPerPick] is [ceil(log2(M * 8) / 8)], pick [j] is the big-endian
    number in the bytes [j * bytesPerPick, (j + 1) * bytesPerPick) of [v]
    masked with [M * 8 - 1], hence in [0, M * 8), and bit [k] of byte [a] of
    [r] is set exactly when some pick [j < P] has [a = M - 1 - index / 8]
    and [k = index mod 8]. *)
Theorem bloomPart_sets_picked_bits (P M N e : Z) (v : list Z) :
  wf N v -> N < 2 ^ 32 -> 0 <= P -> 0 <= e -> M = 2 ^ e -> M * 8 < 2 ^ 32 ->
  P * Z.of_nat (bytesPerPick M) <= N ->
  exists r,
    bloomPart P M N v = Some r
    /\ r = bloom_spec P M v
    /\ wf M r
    /\ 2 ^ Z.log2 (M * 8) = M * 8
    /\ Z.log2 (M * 8) <= 8 * Z.of_nat (bytesPerPick M) < Z.log2 (M * 8) + 8
    /\ (forall j : nat,
          pick_index M v j
          = Z.land (fromBigEndian Bigint
                      (take (bytesPerPick M) (drop (j * bytesPerPick M) v)))
                   (M * 8 - 1)
          /\ 0 <= pick_index M v j < M * 8)
    /\ (forall (a : nat) (k : Z), Z.of_nat a < M -> 0 <= k < 8 ->
          (Z.testbit (r !!! a) k = true <->
           exists j : nat,
             Z.of_nat j < P
             /\ Z.of_nat a = M - 1 - pick_index M v j / 8
             /\ k = pick_index M v j mod 8)).
Proof.
  intros Hv HN HP He -> HM8 HPN.
  pose proof (pow2_exp_bound e He HM8) as He28.
  destruct (bloom_constants e (conj He He28)) as (H8 & Hbits & Hlog & Hbytes & _).
  assert (HM : 0 < 2 ^ e) by (apply Z.pow_pos_nonneg; lia).
  exists (bloom_spec P (2 ^ e) v).
  split; [apply (bloomPart_spec P (2 ^ e) N e); auto; lia|].
  split; [reflexivity|].
  split; [apply bloom_spec_wf; exact He|].
  split; [rewrite Hlog; symmetry; exact H8|].
  split.
  { unfold bytesPerPick. rewrite Z2Nat.id by lia.
    pose proof (Z_div_mod_eq_full (Z.log2 (2 ^ e * 8) + 7) 8).
    pose proof (Z.mod_pos_bound (Z.log2 (2 ^ e * 8) + 7) 8 ltac:(lia)). lia. }
  split.
  { intros j. split; [|apply pick_index_range; exact He].
    unfold pick_index. rewrite fromBigEndian_bigint; [reflexivity|].
    apply Forall_take, Forall_drop, Hv. }
  intros a k Ha Hk. unfold bloom_spec.
  rewrite fold_set_bit_testbit; try lia.
  - rewrite lookup_total_replicate_2 by lia. rewrite Z.bits_0, orb_false_l.
    rewrite existsb_seq. split.
    + intros (j & Hj & Hf). apply andb_true_iff in Hf as [H1 H2].
      apply Z.eqb_eq in H1, H2. exists j. repeat split; [lia|exact H1|exact H2].
    + intros (j & Hj & H1 & H2). exists j. split; [lia|].
      apply andb_true_iff. split; apply Z.eqb_eq; assumption.
  - intros j. apply pick_index_range. exact He.
  - apply length_replicate.
  - apply Forall_replicate_byte. unfold is_byte. lia.
Qed.

Lemma bloomPart_sets_picked_bits_witness :
  let v := [0x01; 0x02; 0xff; 4; 5; 6; 7; 8; 9; 10; 11; 12; 13; 14; 15; 16;
            17; 18; 19; 20; 21; 22; 23; 24; 25; 26; 27; 28; 29; 30; 31; 32] in
  bloomPart 3 32 32 v
  = Some [0x80; 0; 0; 0; 0; 0; 0; 0; 0; 0; 0; 0; 0; 0; 0; 0;
          0; 0; 0; 0; 0; 0; 0; 0; 0; 0; 0; 0; 0; 0; 0; 0x06].
Proof.
  intros v.
  destruct (bloomPart_sets_picked_bits 3 32 32 5 v) as (r & Hr & Hspec & _).
  - subst v. solve_wf.
  - lia.
  - lia.
  - lia.
  - reflexivity.
  - lia.
  - change (bytesPerPick 32) with 1%nat. lia.
  - rewrite Hr, Hspec. vm_compute. reflexivity.
Defined.

(** C10.  For every source value and valid parameters, the [M]-byte
    result of [bloomPart<P, M>] has at most [P] bits set; when [P >= 1] it
    has at least one bit set, so it is not the all-zero value.  Pick [i]
    turns the result of the first [i] picks into the result of the first
    [i + 1] by setting one bit ([set_bit]); the number of set bits grows by
    one, or by none when that bit is already set: picks may coincide, as
    they do on the all-zero source, whose three picks set a single bit. *)
Theorem bloomPart_popcount (P M N e : Z) (v : list Z) :
  wf N v -> N < 2 ^ 32 -> 0 <= P -> 0 <= e -> M = 2 ^ e -> M * 8 < 2 ^ 32 ->
  P * Z.of_nat (bytesPerPick M) <= N ->
  exists r,
    bloomPart P M N v = Some r
    /\ 0 <= popcount r <= P
    /\ (1 <= P -> 1 <= popcount r /\ r <> FixedHash_empty M)
    /\ (forall i : Z, 0 <= i < P ->
          exists ri,
            bloomPart i M N v = Some ri
            /\ bloomPart (i + 1) M N v
               = Some (set_bit M ri (pick_index M v (Z.to_nat i)))
            /\ popcount ri <= popcount (set_bit M ri (pick_index M v (Z.to_nat i)))
               <= popcount ri + 1)
    /\ (exists r0, bloomPart 3 32 32 (FixedHash_empty 32) = Some r0
                   /\ popcount r0 = 1).
Proof.
  intros Hv HN HP He -> HM8 HPN.
  pose proof (pow2_exp_bound e He HM8) as He28.
  assert (HM : 0 < 2 ^ e) by (apply Z.pow_pos_nonneg; lia).
  assert (Hidx : forall j, 0 <= pick_index (2 ^ e) v j < 2 ^ e * 8)
    by (intros j; apply pick_index_range; exact He).
  assert (Hz : Forall is_byte (replicate (Z.to_nat (2 ^ e)) 0))
    by (apply Forall_replicate_byte; unfold is_byte; lia).
  assert (Hpart : forall i, 0 <= i <= P ->
            bloomPart i (2 ^ e) N v = Some (bloom_spec i (2 ^ e) v)).
  { intros i Hi. apply (bloomPart_spec i (2 ^ e) N e); auto; try lia.
    assert (0 <= Z.of_nat (bytesPerPick (2 ^ e))) by lia. nia. }
  exists (bloom_spec P (2 ^ e) v).
  split; [apply Hpart; lia|].
  destruct (fold_set_bit_popcount (2 ^ e) (pick_index (2 ^ e) v)
              (seq 0 (Z.to_nat P)) (replicate (Z.to_nat (2 ^ e)) 0) HM Hidx
              (length_replicate _ _) Hz) as [Hrange Hone].
  cbv zeta in Hrange, Hone. fold (bloom_spec P (2 ^ e) v) in Hrange, Hone.
  rewrite popcount_replicate_0, length_seq in Hrange.
  split; [lia|]. split.
  { intros HP1.
    assert (H1 : 1 <= popcount (bloom_spec P (2 ^ e) v)).
    { apply Hone. destruct (Z.to_nat P) eqn:EP; [lia|discriminate]. }
    split; [exact H1|]. intros Heq. rewrite Heq in H1.
    unfold FixedHash_empty in H1. rewrite popcount_replicate_0 in H1. lia. }
  split.
  { intros i Hi. exists (bloom_spec i (2 ^ e) v).
    split; [apply Hpart; lia|].
    assert (Hstep : bloom_spec (i + 1) (2 ^ e) v
                    = set_bit (2 ^ e) (bloom_spec i (2 ^ e) v)
                              (pick_index (2 ^ e) v (Z.to_nat i))).
    { unfold bloom_spec.
      replace (Z.to_nat (i + 1)) with (Z.to_nat i + 1)%nat by lia.
      rewrite seq_app, fold_left_app. reflexivity. }
    split; [rewrite <- Hstep; apply Hpart; lia|].
    apply popcount_set_bit; [exact HM|apply Hidx|].
    destruct (bloom_spec_wf i e v He) as [Hl _]. lia. }
  exists (bloom_spec 3 32 (FixedHash_empty 32)). split; vm_compute; reflexivity.
Qed.

Lemma bloomPart_popcount_witness :
  let v := [0x01; 0x02; 0xff; 4; 5; 6; 7; 8; 9; 10; 11; 12; 13; 14; 15; 16;
            17; 18; 19; 20; 21; 22; 23; 24; 25; 26; 27; 28; 29; 30; 31; 32] in
  exists r, bloomPart 3 32 32 v = Some r /\ 0 <= popcount r <= 3.
Proof.
  intros v.
  destruct (bloomPart_popcount 3 32 32 5 v) as (r & Hr & Hpop & _).
  - subst v. solve_wf.
  - lia.
  - lia.
  - lia.
  - reflexivity.
  - lia.
  - change (bytesPerPick 32) with 1%nat. lia.
  - exists r. split; [exact Hr|exact Hpop].
Defined.

(** ** Bloom insertion and membership *)

Lemma assign_loop_zip (op : Z -> Z -> Z) (k i : nat) (m_data _c : list Z) :
  (i + k <= length m_data)%nat -> (i + k <= length _c)%nat ->
  assign_loop op k i m_data _c
  = take i m_data
    ++ zip_with (fun x y => wrap8 (op x y))
                (take k (drop i m_data)) (take k (drop i _c))
    ++ drop (i + k) m_data.
Proof.
  revert i m_data. induction k as [|k IH]; intros i m_data Hm Hc.
  - cbn [assign_loop]. rewrite !take_0, Nat.add_0_r. cbn [zip_with app].
    rewrite take_drop. reflexivity.
  - cbn [assign_loop].
    rewrite IH by (rewrite ?length_insert; lia).
    rewrite take_S_insert by lia.
    rewrite !drop_insert_lt by lia.
    rewrite (drop_lookup_total m_data i), (drop_lookup_total _c i) by lia.
    rewrite !firstn_cons. cbn [zip_with].
    rewrite <- app_assoc. cbn [app].
    replace (S i + k)%nat with (i + S k)%nat by lia. reflexivity.
Qed.

Lemma assign_zip (op : Z -> Z -> Z) (N : Z) (m_data _c : list Z) :
  Z.of_nat (length m_data) = N -> Z.of_nat (length _c) = N ->
  assign_loop op (Z.to_nat N) 0 m_data _c
  = zip_with (fun x y => wrap8 (op x y)) m_data _c.
Proof.
  intros Hm Hc. rewrite assign_loop_zip by lia.
  rewrite take_0, !drop_0. cbn [app].
  rewrite !take_ge, drop_ge by lia. apply app_nil_r.
Qed.

Lemma zip_with_wrap8_wf (op : Z -> Z -> Z) (N : Z) (a c : list Z) :
  Z.of_nat (length a) = N -> Z.of_nat (length c) = N ->
  wf N (zip_with (fun x y => wrap8 (op x y)) a c).
Proof.
  intros Ha Hc. split.
  - rewrite length_zip_with. lia.
  - clear Ha Hc. revert c. induction a as [|x a IH]; intros [|y c]; cbn [zip_with];
      try constructor; [apply wrap8_is_byte|apply IH].
Qed.

Lemma land_lor_same (a b : Z) : Z.land (Z.lor a b) b = b.
Proof.
  apply Z.bits_inj'. intros n Hn.
  rewrite Z.land_spec, Z.lor_spec.
  destruct (Z.testbit a n), (Z.testbit b n); reflexivity.
Qed.

Lemma and_or_absorb (a c : list Z) :
  length a = length c -> Forall is_byte a -> Forall is_byte c ->
  zip_with (fun x y => wrap8 (Z.land x y))
           (zip_with (fun x y => wrap8 (Z.lor x y)) a c) c
  = c.
Proof.
  intros Hlen Ha. revert c Hlen.
  induction Ha as [|x a Hx Ha IH]; intros [|y c] Hlen Hc; try discriminate; [reflexivity|].
  apply Forall_cons in Hc as [Hy Hc]. cbn [zip_with].
  rewrite (wrap8_byte (Z.lor x y)) by (apply lor_is_byte; assumption).
  rewrite land_lor_same, (wrap8_byte y) by exact Hy.
  f_equal. apply IH; [simpl in Hlen; lia|exact Hc].
Qed.

(** C2.  For every filter [self] of size [N] and item [other] of size [M]
    (with [N] a power of two, [P * bytesPerPick N <= M], and sizes that are
    values of [unsigned], [N * 8] included), [self.shiftBloom<P>(other)]
    gives a filter on which [containsBloom<P>(other)] returns true:
    insertion followed by the membership test has no false negative. *)
Theorem containsBloom_after_shiftBloom (host : endianness) (P M N e : Z)
    (self other : list Z) :
  wf N self -> wf M other ->
  M < 2 ^ 32 -> 0 <= P -> 0 <= e -> N = 2 ^ e -> N * 8 < 2 ^ 32 ->
  P * Z.of_nat (bytesPerPick N) <= M ->
  exists self',
    shiftBloom P M N self other = Some self'
    /\ wf N self'
    /\ containsBloom host P M N self' other = Some true.
Proof.
  intros [Hls Hs] Ho HM HP He HN HN8 HPM.
  pose proof (pow2_exp_bound e He ltac:(rewrite <- HN; exact HN8)) as He28.
  assert (Hpart : bloomPart P N M other = Some (bloom_spec P N other)).
  { apply (bloomPart_spec P N M e); auto; lia. }
  destruct (bloom_spec_wf P e other He) as [Hlp Hp]. rewrite <- HN in Hlp, Hp.
  set (part := bloom_spec P N other) in *.
  unfold shiftBloom, containsBloom. rewrite Hpart.
  exists (or_assign N self part).
  unfold or_assign. rewrite (assign_zip Z.lor N self part) by assumption.
  pose proof (zip_with_wrap8_wf Z.lor N self part Hls Hlp) as Hor.
  split; [reflexivity|]. split; [exact Hor|]. f_equal.
  unfold contains, FixedHash_and, and_assign.
  rewrite (assign_zip Z.land N) by (apply Hor || exact Hlp).
  rewrite and_or_absorb by (lia || assumption).
  apply FixedHash_eq_true; (split; assumption) || reflexivity.
Qed.

Lemma containsBloom_after_shiftBloom_witness :
  let self := [0xaa; 0; 0; 0; 0; 0; 0; 0; 0; 0; 0; 0; 0; 0; 0; 0;
               0; 0; 0; 0; 0; 0; 0; 0; 0; 0; 0; 0; 0; 0; 0; 0x01] in
  let other := [0x01; 0x02; 0xff; 4; 5; 6; 7; 8; 9; 10; 11; 12; 13; 14; 15; 16;
                17; 18; 19; 20; 21; 22; 23; 24; 25; 26; 27; 28; 29; 30; 31; 32] in
  exists self',
    shiftBloom 3 32 32 self other = Some self'
    /\ containsBloom LittleEndian 3 32 32 self' other = Some true.
Proof.
  intros self other.
  destruct (containsBloom_after_shiftBloom LittleEndian 3 32 32 5 self other)
    as (self' & Hshift & _ & Hcontains).
  - subst self. solve_wf.
  - subst other. solve_wf.
  - lia.
  - lia.
  - lia.
  - reflexivity.
  - lia.
  - change (bytesPerPick 32) with 1%nat. lia.
  - exists self'. split; [exact Hshift|exact Hcontains].
Defined.

(** ** The range of the size parameters

    The bound [M * 8 < 2^32] of the Bloom properties is where the
    [unsigned] constant [c_bloomBits = M * 8] does not wrap.  Past it
    [c_bloomBits] is 0 and [StaticLog2<0>] has no value: the template
    [bloomPart<P, M>] has no instance there, so there is no call for a
    property to be about. *)
Lemma bloomPart_bits_overflow (P N : Z) (v : list Z) :
  bloomPart P (2 ^ 29) N v = None.
Proof. reflexivity. Qed.

(** * Further properties of the class *)

(** ** Inequality and the boolean conversion *)

(** X1.  [operator!=], which always compares the two arrays byte by byte,
    is the negation of [operator==] at every size, the specialised
    [N = 32] included. *)
Theorem ne_is_not_eq (e : endianness) (N : Z) (a c : list Z) :
  wf N a -> wf N c ->
  FixedHash_ne a c = negb (FixedHash_eq e N a c)
  /\ (FixedHash_ne a c = true <-> a <> c).
Proof.
  intros Ha Hc. unfold FixedHash_ne.
  assert (H : array_eq a c = FixedHash_eq e N a c).
  { apply eq_true_iff_eq. rewrite array_eq_true, (FixedHash_eq_true e N) by assumption.
    reflexivity. }
  split; [rewrite H; reflexivity|].
  rewrite negb_true_iff, <- not_true_iff_false, array_eq_true. reflexivity.
Qed.

Lemma ne_is_not_eq_witness :
  FixedHash_ne [1; 2; 3] [1; 2; 4] = negb (FixedHash_eq LittleEndian 3 [1; 2; 3] [1; 2; 4]).
Proof.
  apply (proj1 (ne_is_not_eq LittleEndian 3 [1; 2; 3] [1; 2; 4]
                  ltac:(solve_wf) ltac:(solve_wf))).
Defined.

Lemma FixedHash_bool_false (v : list Z) :
  FixedHash_bool v = false <-> v = replicate (length v) 0.
Proof.
  induction v as [|b v IH]; [split; reflexivity|].
  cbn [FixedHash_bool existsb length replicate]. fold (FixedHash_bool v).
  rewrite orb_false_iff, negb_false_iff, Z.eqb_eq, IH. split.
  - intros [-> <-]. reflexivity.
  - intros [= -> Hv]. split; [reflexivity|exact Hv].
Qed.

(** X2.  The conversion to [bool] is false exactly on the all-zero value,
    that is exactly when the value decodes to the number 0; it is true as
    soon as one byte is non-zero. *)
Theorem bool_is_nonzero (N : Z) (v : list Z) :
  wf N v ->
  (FixedHash_bool v = false <-> v = FixedHash_empty N)
  /\ (FixedHash_bool v = true <-> fromBigEndian Bigint v <> 0)
  /\ (FixedHash_bool v = true <-> exists i : nat, (i < length v)%nat /\ v !!! i <> 0).
Proof.
  intros [Hlen Hb].
  assert (Hn : Z.to_nat N = length v) by lia.
  assert (H1 : FixedHash_bool v = false <-> v = FixedHash_empty N).
  { unfold FixedHash_empty. rewrite Hn. apply FixedHash_bool_false. }
  split; [exact H1|]. split.
  - rewrite fromBigEndian_bigint by exact Hb.
    rewrite <- not_false_iff_true, H1. split.
    + intros Hne Hz. apply Hne. unfold FixedHash_empty. rewrite Hn.
      apply be_value_inj.
      * exact Hb.
      * apply Forall_replicate_byte. unfold is_byte. lia.
      * rewrite length_replicate. reflexivity.
      * rewrite be_value_replicate_0. exact Hz.
    + intros Hne ->. apply Hne. apply be_value_replicate_0.
  - unfold FixedHash_bool. rewrite existsb_exists. split.
    + intros (b & Hin & Hnz). apply list_elem_of_In, list_elem_of_lookup in Hin as [i Hi].
      exists i. split; [apply lookup_lt_Some in Hi; exact Hi|].
      rewrite (list_lookup_total_correct _ _ _ Hi).
      apply negb_true_iff, Z.eqb_neq in Hnz. exact Hnz.
    + intros (i & Hi & Hnz). exists (v !!! i). split.
      * apply list_elem_of_In, list_elem_of_lookup. exists i.
        apply list_lookup_lookup_total_lt. exact Hi.
      * apply negb_true_iff, Z.eqb_neq. exact Hnz.
Qed.

Lemma bool_is_nonzero_witness :
  FixedHash_bool [0; 0; 0] = false /\ FixedHash_bool [0; 4; 0] = true.
Proof.
  split.
  - apply (proj1 (bool_is_nonzero 3 [0; 0; 0] ltac:(solve_wf))). reflexivity.
  - apply (proj1 (proj2 (bool_is_nonzero 3 [0; 4; 0] ltac:(solve_wf)))).
    vm_compute. discriminate.
Defined.

(** ** Construction from a value of another size *)

Lemma FixedHash_from_hash_left (N M : Z) (_h : list Z) _t :
  is_AlignRight _t = false -> length _h = Z.to_nat M ->
  FixedHash_from_hash N M _h _t
  = take (Z.to_nat N) _h ++ replicate (Z.to_nat N - Z.to_nat M) 0.
Proof.
  intros Ht Hlen. unfold FixedHash_from_hash, FixedHash_empty.
  rewrite align_loop_left; rewrite ?length_replicate; try assumption; try lia.
  rewrite take_0, drop_0, drop_replicate. cbn [app].
  replace (Z.to_nat (Z.min M N)) with (Nat.min (Z.to_nat M) (Z.to_nat N)) by lia.
  f_equal.
  - destruct (Nat.le_ge_cases (Z.to_nat M) (Z.to_nat N)).
    + rewrite Nat.min_l by assumption. rewrite !take_ge by lia. reflexivity.
    + rewrite Nat.min_r by assumption. reflexivity.
  - f_equal. lia.
Qed.

(** X3.  The constructor from a value of another size zero-fills and
    copies [min (M, N)] bytes: from the starts under [AlignLeft], and under
    [FailIfDifferent], which this constructor treats like [AlignLeft]; from
    the ends under [AlignRight].  The result has [N] bytes. *)
Theorem from_hash_layout (N M : Z) (h : list Z) :
  wf M h -> 0 <= N < 2 ^ 32 -> M < 2 ^ 32 ->
  let n := Z.to_nat N in
  let m := Z.to_nat M in
  FixedHash_from_hash N M h AlignLeft = take n h ++ replicate (n - m) 0
  /\ FixedHash_from_hash N M h FailIfDifferent
     = FixedHash_from_hash N M h AlignLeft
  /\ FixedHash_from_hash N M h AlignRight = replicate (n - m) 0 ++ drop (m - n) h
  /\ (forall t, wf N (FixedHash_from_hash N M h t)).
Proof.
  intros [Hlen Hb] HN HM n m. subst n m.
  assert (Hl : length h = Z.to_nat M) by lia.
  assert (HL : forall t, is_AlignRight t = false ->
            FixedHash_from_hash N M h t
            = take (Z.to_nat N) h ++ replicate (Z.to_nat N - Z.to_nat M) 0)
    by (intros t Ht; apply FixedHash_from_hash_left; assumption).
  assert (HR : FixedHash_from_hash N M h AlignRight
               = replicate (Z.to_nat N - Z.to_nat M) 0 ++ drop (Z.to_nat M - Z.to_nat N) h)
    by (apply FixedHash_from_hash_right; lia).
  split; [apply HL; reflexivity|].
  split; [rewrite !HL by reflexivity; reflexivity|].
  split; [exact HR|].
  intros t. destruct t; rewrite ?HR, ?HL by reflexivity; split;
    rewrite ?length_app, ?length_replicate, ?length_take, ?length_drop; try lia;
    apply Forall_app; split;
    auto using Forall_take, Forall_drop;
    apply Forall_replicate_byte; unfold is_byte; lia.
Qed.

Lemma from_hash_layout_witness :
  FixedHash_from_hash 5 3 [1; 2; 3] AlignLeft = [1; 2; 3; 0; 0]
  /\ FixedHash_from_hash 5 3 [1; 2; 3] AlignRight = [0; 0; 1; 2; 3]
  /\ FixedHash_from_hash 2 3 [1; 2; 3] AlignLeft = [1; 2]
  /\ FixedHash_from_hash 2 3 [1; 2; 3] AlignRight = [2; 3].
Proof.
  destruct (from_hash_layout 5 3 [1; 2; 3] ltac:(solve_wf) ltac:(lia) ltac:(lia))
    as (H1 & _ & H2 & _).
  destruct (from_hash_layout 2 3 [1; 2; 3] ltac:(solve_wf) ltac:(lia) ltac:(lia))
    as (H3 & _ & H4 & _).
  split; [rewrite H1; reflexivity|].
  split; [rewrite H2; reflexivity|].
  split; [rewrite H3; reflexivity|rewrite H4; reflexivity].
Defined.

(** X4.  At equal sizes the constructor from another value is the
    identity, whatever the policy. *)
Theorem from_hash_same_size (N : Z) (v : list Z) (t : ConstructFromHashType) :
  wf N v -> N < 2 ^ 32 -> FixedHash_from_hash N N v t = v.
Proof.
  intros [Hlen Hb] HN.
  destruct t.
  - rewrite FixedHash_from_hash_left by (reflexivity || lia).
    rewrite Nat.sub_diag, take_ge by lia. apply app_nil_r.
  - rewrite FixedHash_from_hash_right by lia.
    rewrite Nat.sub_diag, drop_0. reflexivity.
  - rewrite FixedHash_from_hash_left by (reflexivity || lia).
    rewrite Nat.sub_diag, take_ge by lia. apply app_nil_r.
Qed.

Lemma from_hash_same_size_witness :
  FixedHash_from_hash 3 3 [7; 8; 9] AlignRight = [7; 8; 9].
Proof. apply from_hash_same_size; [solve_wf|lia]. Defined.

Lemma be_value_app (a c : list Z) :
  be_value (a ++ c) = be_value a * 2 ^ (8 * Z.of_nat (length c)) + be_value c.
Proof.
  unfold be_value at 1. rewrite fold_left_app. fold (be_value a).
  apply be_value_acc.
Qed.

Lemma be_value_drop (k : nat) (l : list Z) :
  Forall is_byte l ->
  be_value (drop k l) = be_value l mod 2 ^ (8 * Z.of_nat (length l - k)).
Proof.
  intros Hl. rewrite <- (take_drop k l) at 2. rewrite be_value_app.
  rewrite length_drop.
  pose proof (be_value_range (drop k l) (Forall_drop _ _ _ Hl)) as Hr.
  rewrite length_drop in Hr.
  rewrite Z.add_comm, Z.mod_add by (apply Z.pow_nonzero; lia).
  symmetry. apply Z.mod_small. exact Hr.
Qed.

Lemma be_value_take (k : nat) (l : list Z) :
  Forall is_byte l ->
  be_value (take k l) = be_value l / 2 ^ (8 * Z.of_nat (length l - k)).
Proof.
  intros Hl. rewrite <- (take_drop k l) at 2. rewrite be_value_app.
  rewrite length_drop.
  pose proof (be_value_range (drop k l) (Forall_drop _ _ _ Hl)) as Hr.
  rewrite length_drop in Hr.
  apply Z.div_unique with (r := be_value (drop k l)); lia.
Qed.

(** X5.  Read as big-endian numbers: [AlignRight] keeps the number modulo
    [2^(N*8)], so it is preserved when the destination is at least as large
    (zero extension) and reduced to its low-order bytes otherwise;
    [AlignLeft] shifts it left by the bytes gained, or right by the bytes
    lost. *)
Theorem from_hash_numeric (N M : Z) (h : list Z) :
  wf M h -> 0 <= N < 2 ^ 32 -> M < 2 ^ 32 ->
  let num := fromBigEndian Bigint in
  num (FixedHash_from_hash N M h AlignRight) = num h mod 2 ^ (N * 8)
  /\ (M <= N -> num (FixedHash_from_hash N M h AlignRight) = num h)
  /\ (M <= N ->
      num (FixedHash_from_hash N M h AlignLeft) = num h * 2 ^ ((N - M) * 8))
  /\ (N <= M ->
      num (FixedHash_from_hash N M h AlignLeft) = num h / 2 ^ ((M - N) * 8)).
Proof.
  intros [Hlen Hb] HN HM num. subst num.
  assert (Hl : length h = Z.to_nat M) by lia.
  assert (Hz : forall k, Forall is_byte (replicate k 0))
    by (intros k; apply Forall_replicate_byte; unfold is_byte; lia).
  pose proof (be_value_range h Hb) as Hr.
  assert (HR : be_value (FixedHash_from_hash N M h AlignRight)
               = be_value h mod 2 ^ (N * 8)).
  { rewrite FixedHash_from_hash_right by lia.
    rewrite be_value_app, be_value_replicate_0, Z.mul_0_l, Z.add_0_l.
    rewrite be_value_drop by exact Hb.
    destruct (Z_le_gt_dec M N) as [Hle|Hgt].
    - replace (length h - (Z.to_nat M - Z.to_nat N))%nat with (length h) by lia.
      rewrite !Z.mod_small; [reflexivity| |exact Hr].
      assert (2 ^ (8 * Z.of_nat (length h)) <= 2 ^ (N * 8))
        by (apply Z.pow_le_mono_r; lia). lia.
    - f_equal. f_equal. lia. }
  rewrite !fromBigEndian_bigint
    by (exact Hb || (rewrite ?FixedHash_from_hash_right, ?(FixedHash_from_hash_left N M h AlignLeft) by (reflexivity || lia);
                     apply Forall_app; split; auto using Forall_take, Forall_drop)).
  split; [exact HR|]. split.
  { intros Hle. rewrite HR. apply Z.mod_small.
    assert (2 ^ (8 * Z.of_nat (length h)) <= 2 ^ (N * 8))
      by (apply Z.pow_le_mono_r; lia). lia. }
  split.
  - intros Hle. rewrite FixedHash_from_hash_left by (reflexivity || lia).
    rewrite be_value_app, be_value_replicate_0, length_replicate, Z.add_0_r.
    rewrite take_ge by lia. f_equal. f_equal. lia.
  - intros Hle. rewrite FixedHash_from_hash_left by (reflexivity || lia).
    replace (Z.to_nat N - Z.to_nat M)%nat with 0%nat by lia.
    cbn [replicate]. rewrite app_nil_r, be_value_take by exact Hb.
    f_equal. f_equal. lia.
Qed.

Lemma from_hash_numeric_witness :
  fromBigEndian Bigint (FixedHash_from_hash 4 2 [0x12; 0x34] AlignRight) = 0x1234
  /\ fromBigEndian Bigint (FixedHash_from_hash 4 2 [0x12; 0x34] AlignLeft) = 0x12340000.
Proof.
  destruct (from_hash_numeric 4 2 [0x12; 0x34] ltac:(solve_wf) ltac:(lia) ltac:(lia))
    as (_ & H1 & H2 & _).
  split; [rewrite H1 by lia|rewrite H2 by lia]; reflexivity.
Defined.

(** ** Encoding numbers *)

Lemma be_bytes_is_byte (n : nat) (z : Z) : Forall is_byte (be_bytes n z).
Proof.
  revert z. induction n as [|n IH]; intros z; [constructor|].
  cbn [be_bytes]. apply Forall_app. split; [apply IH|].
  constructor; [|constructor]. unfold is_byte. apply Z.mod_pos_bound. lia.
Qed.

Lemma be_value_be_bytes (n : nat) (z : Z) :
  be_value (be_bytes n z) = z mod 2 ^ (8 * Z.of_nat n).
Proof.
  revert z. induction n as [|n IH]; intros z.
  - simpl. rewrite Z.mod_1_r. reflexivity.
  - cbn [be_bytes]. rewrite be_value_snoc, IH, pow256_succ.
    rewrite (Z.mul_comm (2 ^ (8 * Z.of_nat n)) 256).
    rewrite Z.rem_mul_r by (try apply Z.pow_pos_nonneg; lia). lia.
Qed.

Lemma toBigEndian_be_bytes (T : arith) (_val : Z) (o_out : list Z) :
  cast T 255 = 255 ->
  toBigEndian T _val o_out = be_bytes (length o_out) _val.
Proof.
  intros HT. unfold toBigEndian.
  rewrite toBigEndian_loop_bytes by (exact HT || lia).
  rewrite drop_all. apply app_nil_r.
Qed.

(** X6.  [toBigEndian] overwrites every element of the destination, so
    the result does not depend on what it held; the result has the same
    length, and decodes to the value modulo [2^(8 * length)]: a value that
    fits is represented exactly (with leading zero bytes), one that does
    not loses its high-order bytes. *)
Theorem toBigEndian_decodes_to_low_bytes (T : arith) (_val : Z) (o_out : list Z) :
  cast T 0xff = 0xff -> 0 <= _val ->
  length (toBigEndian T _val o_out) = length o_out
  /\ Forall is_byte (toBigEndian T _val o_out)
  /\ fromBigEndian Bigint (toBigEndian T _val o_out)
     = _val mod 2 ^ (8 * Z.of_nat (length o_out))
  /\ (_val < 2 ^ (8 * Z.of_nat (length o_out)) ->
      fromBigEndian Bigint (toBigEndian T _val o_out) = _val)
  /\ (forall o_out' : list Z, length o_out' = length o_out ->
        toBigEndian T _val o_out' = toBigEndian T _val o_out).
Proof.
  intros HT Hval.
  assert (Hdec : fromBigEndian Bigint (toBigEndian T _val o_out)
                 = _val mod 2 ^ (8 * Z.of_nat (length o_out))).
  { rewrite toBigEndian_be_bytes by exact HT.
    rewrite fromBigEndian_bigint by apply be_bytes_is_byte.
    apply be_value_be_bytes. }
  split; [rewrite toBigEndian_be_bytes by exact HT; apply length_be_bytes|].
  split; [rewrite toBigEndian_be_bytes by exact HT; apply be_bytes_is_byte|].
  split; [exact Hdec|].
  split; [intros Hlt; rewrite Hdec; apply Z.mod_small; lia|].
  intros o_out' Hlen. rewrite !toBigEndian_be_bytes by exact HT.
  rewrite Hlen. reflexivity.
Qed.

Lemma toBigEndian_decodes_to_low_bytes_witness :
  toBigEndian Bigint 0x123456 [9; 9] = toBigEndian Bigint 0x123456 [0; 0]
  /\ fromBigEndian Bigint (toBigEndian Bigint 0x123456 [9; 9]) = 0x3456.
Proof.
  destruct (toBigEndian_decodes_to_low_bytes Bigint 0x123456 [0; 0])
    as (_ & _ & Hd & _ & Hi); [reflexivity|lia|].
  split; [apply Hi; reflexivity|].
  rewrite (Hi [9; 9] eq_refl), Hd. reflexivity.
Defined.

(** X7.  [FixedHash(unsigned _u)] gives an [N]-byte value that does not
    depend on the storage before the call and decodes to
    [_u mod 2^(N*8)]; for [N >= 4] with [N * 8 < 2^32], [operator Arith]
    converts it back to [_u]. *)
Theorem from_unsigned_value (N : Z) (m_data0 : list Z) (_u : Z) :
  Z.of_nat (length m_data0) = N -> 0 <= _u < 2 ^ 32 ->
  wf N (FixedHash_from_unsigned m_data0 _u)
  /\ FixedHash_from_unsigned m_data0 _u
     = FixedHash_from_unsigned (FixedHash_empty N) _u
  /\ fromBigEndian Bigint (FixedHash_from_unsigned m_data0 _u)
     = _u mod 2 ^ (N * 8)
  /\ (4 <= N -> N * 8 < 2 ^ 32 ->
      operator_Arith N (FixedHash_from_unsigned m_data0 _u) = _u).
Proof.
  intros Hlen Hu. unfold FixedHash_from_unsigned, FixedHash_empty.
  assert (HT : cast (Unsigned 32) 255 = 255) by reflexivity.
  rewrite !toBigEndian_be_bytes by exact HT. rewrite length_replicate.
  replace (Z.to_nat N) with (length m_data0) by lia.
  split; [split; [rewrite length_be_bytes; exact Hlen|apply be_bytes_is_byte]|].
  split; [reflexivity|].
  rewrite fromBigEndian_bigint by apply be_bytes_is_byte.
  split; [rewrite be_value_be_bytes; f_equal; f_equal; lia|].
  intros HN HN8. unfold operator_Arith, Arith_bits.
  rewrite (wrap32_small (N * 8)) by lia.
  rewrite fromBigEndian_unsigned
    by (try apply be_bytes_is_byte; rewrite length_be_bytes; lia).
  rewrite be_value_be_bytes. apply Z.mod_small.
  assert (2 ^ 32 <= 2 ^ (8 * Z.of_nat (length m_data0)))
    by (apply Z.pow_le_mono_r; lia). lia.
Qed.

Lemma from_unsigned_value_witness :
  FixedHash_from_unsigned [9; 9; 9; 9; 9] 0xdeadbeef = [0; 0xde; 0xad; 0xbe; 0xef]
  /\ operator_Arith 5 (FixedHash_from_unsigned [9; 9; 9; 9; 9] 0xdeadbeef)
     = 0xdeadbeef.
Proof.
  destruct (from_unsigned_value 5 [9; 9; 9; 9; 9] 0xdeadbeef eq_refl ltac:(lia))
    as (_ & _ & _ & H).
  split; [reflexivity|apply H; lia].
Defined.

Lemma fromBigEndian_unsigned_loop_mod (w : Z) (l : list Z) (acc a : Z) :
  8 <= w -> Forall is_byte l -> acc = a mod 2 ^ w ->
  fold_left (fun ret i => cast (Unsigned w)
                            (Z.lor (cast (Unsigned w) (Z.shiftl ret 8)) (wrap8 i)))
            l acc
  = fold_left (fun r b => r * 256 + b) l a mod 2 ^ w.
Proof.
  intros Hw Hl. revert acc a.
  induction Hl as [|b l Hb Hl IH]; intros acc a Hacc; [exact Hacc|].
  cbn [fold_left]. apply IH. cbn [cast]. unfold wrap.
  assert (Hm : 2 ^ w = 2 ^ (w - 8) * 256).
  { replace w with ((w - 8) + 8) at 1 by lia. rewrite Z.pow_add_r by lia.
    reflexivity. }
  assert (Hpos : 0 < 2 ^ (w - 8)) by (apply Z.pow_pos_nonneg; lia).
  rewrite wrap8_byte by exact Hb.
  rewrite Z.shiftl_mul_pow2 by lia. change (2 ^ 8) with 256.
  rewrite Hm at 1. rewrite Z.mul_mod_distr_r by lia.
  rewrite <- (Z.shiftl_mul_pow2 _ 8) by lia.
  rewrite lor_shiftl8 by exact Hb.
  rewrite <- (Z.mul_mod_distr_r acc (2 ^ (w - 8)) 256) by lia.
  rewrite <- Hm. rewrite Zplus_mod_idemp_l.
  rewrite Hacc. rewrite <- (Zplus_mod_idemp_l (a mod 2 ^ w * 256)).
  rewrite Zmult_mod_idemp_l, Zplus_mod_idemp_l. reflexivity.
Qed.

Lemma fromBigEndian_unsigned_mod (w : Z) (l : list Z) :
  8 <= w -> Forall is_byte l ->
  fromBigEndian (Unsigned w) l = be_value l mod 2 ^ w.
Proof.
  intros Hw Hl. unfold fromBigEndian, be_value.
  apply fromBigEndian_unsigned_loop_mod; [exact Hw|exact Hl|reflexivity].
Qed.

(** X8.  [operator Arith] reads the bytes in the type of [N * 8] bits,
    that width being computed in [unsigned].  For [N * 8 < 2^32] it never
    truncates: the number it returns is the big-endian value of the bytes,
    below [2^(N*8)]; it is injective, and [operator<] compares the numbers
    it returns.  In general, for a width of at least 8 bits, it returns
    that value modulo [2^width]. *)
Theorem operator_Arith_exact (N : Z) (v w : list Z) :
  wf N v -> wf N w ->
  (N * 8 < 2 ^ 32 ->
     operator_Arith N v = fromBigEndian Bigint v
     /\ 0 <= operator_Arith N v < 2 ^ (N * 8)
     /\ (operator_Arith N v = operator_Arith N w -> v = w)
     /\ FixedHash_lt N v w = (operator_Arith N v <? operator_Arith N w))
  /\ (8 <= Arith_bits N ->
      operator_Arith N v = fromBigEndian Bigint v mod 2 ^ Arith_bits N).
Proof.
  intros Hv Hw. split.
  - intros HN8.
    assert (HA : forall x, wf N x -> operator_Arith N x = be_value x).
    { intros x [Hl Hb]. unfold operator_Arith, Arith_bits.
      rewrite (wrap32_small (N * 8)) by lia.
      apply fromBigEndian_unsigned; [exact Hb|lia]. }
    rewrite (FixedHash_lt_value N) by assumption.
    rewrite !HA by assumption.
    destruct Hv as [Hlv Hbv], Hw as [Hlw Hbw].
    rewrite !fromBigEndian_bigint by assumption.
    split; [reflexivity|]. split.
    + pose proof (be_value_range v Hbv) as Hr.
      replace (N * 8) with (8 * Z.of_nat (length v)) by lia. exact Hr.
    + split; [|reflexivity]. apply be_value_inj; [assumption..|lia].
  - intros Hbits. destruct Hv as [Hlv Hbv].
    rewrite fromBigEndian_bigint by exact Hbv.
    unfold operator_Arith. apply fromBigEndian_unsigned_mod; assumption.
Qed.

Lemma operator_Arith_exact_witness :
  operator_Arith 2 [0x12; 0x34] = 0x1234.
Proof.
  destruct (operator_Arith_exact 2 [0x12; 0x34] [0; 0]
              ltac:(solve_wf) ltac:(solve_wf)) as (H & _).
  destruct (H ltac:(lia)) as (H1 & _).
  rewrite H1. reflexivity.
Defined.

(** X9.  A value goes through its byte vector and back unchanged:
    constructing from [asBytes()] with either constructor and any policy,
    or from a pointer to the bytes (whatever follows them in memory),
    gives the value again. *)
Theorem asBytes_roundtrip (N : Z) (m_data0 h rest : list Z)
    (t : ConstructFromHashType) :
  wf N h -> N < 2 ^ 32 -> length m_data0 = Z.to_nat N ->
  asBytes N h = h
  /\ FixedHash_from_bytes N m_data0 (asBytes N h) t = h
  /\ FixedHash_from_bytesConstRef N m_data0 (asBytes N h) t = h
  /\ FixedHash_from_pointer N m_data0 (h ++ rest) = h.
Proof.
  intros [Hlen Hb] HN Hm0.
  assert (Has : asBytes N h = h) by (unfold asBytes; apply take_ge; lia).
  assert (Hspec : from_bytes_spec N h t = h)
    by (unfold from_bytes_spec; rewrite decide_True by lia; reflexivity).
  rewrite Has. split; [reflexivity|].
  split; [|split].
  - unfold FixedHash_from_bytes. rewrite FixedHash_from_bytes_at_spec by lia.
    exact Hspec.
  - unfold FixedHash_from_bytesConstRef.
    rewrite FixedHash_from_bytes_at_spec by lia. exact Hspec.
  - unfold FixedHash_from_pointer, memcpy.
    rewrite drop_0, drop_ge by lia.
    rewrite take_app_le by lia. rewrite take_ge by lia. apply app_nil_r.
Qed.

Lemma asBytes_roundtrip_witness :
  FixedHash_from_bytes 3 [9; 9; 9] (asBytes 3 [1; 2; 3]) FailIfDifferent = [1; 2; 3]
  /\ FixedHash_from_pointer 3 [9; 9; 9] ([1; 2; 3] ++ [4; 5]) = [1; 2; 3].
Proof.
  destruct (asBytes_roundtrip 3 [9; 9; 9] [1; 2; 3] [4; 5] FailIfDifferent
              ltac:(solve_wf) ltac:(lia) eq_refl) as (_ & H1 & _ & H2).
  split; [exact H1|exact H2].
Defined.

(** ** Bitwise operators *)

Lemma is_byte_bits (z : Z) :
  0 <= z -> (forall n, 8 <= n -> Z.testbit z n = false) -> is_byte z.
Proof.
  intros Hz Hbits. split; [exact Hz|].
  destruct (Z_lt_le_dec z 256) as [Hlt|Hge]; [exact Hlt|exfalso].
  assert (Hlog : 8 <= Z.log2 z) by (apply (Z.log2_le_pow2 z 8); lia).
  pose proof (Z.bit_log2 z ltac:(lia)) as Hbit.
  rewrite (Hbits _ Hlog) in Hbit. discriminate.
Qed.

Lemma land_is_byte (a b : Z) : is_byte a -> is_byte b -> is_byte (Z.land a b).
Proof.
  intros Ha Hb. apply is_byte_bits.
  - apply Z.land_nonneg. left. apply Ha.
  - intros n Hn. rewrite Z.land_spec, (byte_testbit_high a n) by assumption.
    reflexivity.
Qed.

Lemma lxor_is_byte (a b : Z) : is_byte a -> is_byte b -> is_byte (Z.lxor a b).
Proof.
  intros Ha Hb. apply is_byte_bits.
  - apply Z.lxor_nonneg. unfold is_byte in *. split; lia.
  - intros n Hn.
    rewrite Z.lxor_spec, (byte_testbit_high a n), (byte_testbit_high b n) by assumption.
    reflexivity.
Qed.

Lemma wrap8_lnot (b : Z) : is_byte b -> wrap8 (Z.lnot b) = 255 - b.
Proof.
  intros Hb. unfold wrap8, wrap. rewrite Z.lnot_eq_pred_opp.
  change (2 ^ 8) with 256. unfold is_byte in Hb.
  symmetry. apply Z.mod_unique with (q := -1); lia.
Qed.

Lemma zip_with_bytes (op : Z -> Z -> Z) (a c : list Z) :
  (forall x y, is_byte x -> is_byte y -> is_byte (op x y)) ->
  Forall is_byte a -> Forall is_byte c ->
  zip_with (fun x y => wrap8 (op x y)) a c = zip_with op a c.
Proof.
  intros Hop Ha. revert c.
  induction Ha as [|x a Hx Ha IH]; intros c Hc; [reflexivity|].
  destruct Hc as [|y c Hy Hc]; [reflexivity|].
  cbn [zip_with]. rewrite wrap8_byte by (apply Hop; assumption).
  f_equal. apply IH. exact Hc.
Qed.

Lemma xor_zip (N : Z) (a c : list Z) :
  wf N a -> wf N c -> FixedHash_xor N a c = zip_with Z.lxor a c.
Proof.
  intros [Hla Ha] [Hlc Hc]. unfold FixedHash_xor, xor_assign.
  rewrite assign_zip by assumption.
  apply zip_with_bytes; auto using lxor_is_byte.
Qed.

Lemma or_zip (N : Z) (a c : list Z) :
  wf N a -> wf N c -> FixedHash_or N a c = zip_with Z.lor a c.
Proof.
  intros [Hla Ha] [Hlc Hc]. unfold FixedHash_or, or_assign.
  rewrite assign_zip by assumption.
  apply zip_with_bytes; auto using lor_is_byte.
Qed.

Lemma and_zip (N : Z) (a c : list Z) :
  wf N a -> wf N c -> FixedHash_and N a c = zip_with Z.land a c.
Proof.
  intros [Hla Ha] [Hlc Hc]. unfold FixedHash_and, and_assign.
  rewrite assign_zip by assumption.
  apply zip_with_bytes; auto using land_is_byte.
Qed.

Lemma zip_with_wf (op : Z -> Z -> Z) (N : Z) (a c : list Z) :
  (forall x y, is_byte x -> is_byte y -> is_byte (op x y)) ->
  wf N a -> wf N c -> wf N (zip_with op a c).
Proof.
  intros Hop [Hla Ha] [Hlc Hc]. split; [rewrite length_zip_with; lia|].
  clear Hla Hlc. revert c Hc.
  induction Ha as [|x a Hx Ha IH]; intros c Hc; [constructor|].
  destruct Hc as [|y c Hy Hc]; [constructor|].
  cbn [zip_with]. constructor; [apply Hop; assumption|apply IH; exact Hc].
Qed.

Lemma zip_with_lookup_total (op : Z -> Z -> Z) (a c : list Z) (i : nat) :
  (i < length a)%nat -> (i < length c)%nat ->
  zip_with op a c !!! i = op (a !!! i) (c !!! i).
Proof.
  intros Ha Hc. apply list_lookup_total_correct.
  rewrite lookup_zip_with.
  rewrite (list_lookup_lookup_total_lt a i Ha), (list_lookup_lookup_total_lt c i Hc).
  reflexivity.
Qed.

Lemma not_loop_map (k i : nat) (m_data ret : list Z) :
  (i + k <= length m_data)%nat -> (i + k <= length ret)%nat ->
  not_loop k i m_data ret
  = take i ret ++ map (fun b => wrap8 (Z.lnot b)) (take k (drop i m_data))
    ++ drop (i + k) ret.
Proof.
  revert i ret. induction k as [|k IH]; intros i ret Hm Hr.
  - cbn [not_loop]. rewrite take_0, Nat.add_0_r. cbn [map app].
    rewrite take_drop. reflexivity.
  - cbn [not_loop]. rewrite IH by (rewrite ?length_insert; lia).
    rewrite take_S_insert by lia. rewrite drop_insert_lt by lia.
    rewrite (drop_lookup_total m_data i) by lia. rewrite firstn_cons.
    cbn [map]. rewrite <- app_assoc. cbn [app].
    replace (S i + k)%nat with (i + S k)%nat by lia. reflexivity.
Qed.

Lemma not_map (N : Z) (a : list Z) :
  wf N a -> FixedHash_not N a = map (fun b => 255 - b) a.
Proof.
  intros [Hla Ha]. unfold FixedHash_not, FixedHash_empty.
  rewrite not_loop_map by (rewrite ?length_replicate; lia).
  rewrite take_0, drop_0, take_ge by lia.
  rewrite drop_ge by (rewrite length_replicate; lia).
  cbn [app]. rewrite app_nil_r.
  apply map_ext_in. intros b Hb. apply wrap8_lnot.
  rewrite Forall_forall in Ha. apply Ha. apply list_elem_of_In. exact Hb.
Qed.

(** X10.  The bitwise operators work byte by byte and keep the size:
    byte [i] of [a ^ c], [a | c], [a & c] is the exclusive or, the or, the
    and of the bytes [i] of [a] and [c], and byte [i] of [~a] is
    [255 - a[i]], the complement of the eight bits. *)
Theorem bitwise_pointwise (N : Z) (a c : list Z) (i : nat) :
  wf N a -> wf N c -> Z.of_nat i < N ->
  wf N (FixedHash_xor N a c) /\ wf N (FixedHash_or N a c)
  /\ wf N (FixedHash_and N a c) /\ wf N (FixedHash_not N a)
  /\ FixedHash_xor N a c !!! i = Z.lxor (a !!! i) (c !!! i)
  /\ FixedHash_or N a c !!! i = Z.lor (a !!! i) (c !!! i)
  /\ FixedHash_and N a c !!! i = Z.land (a !!! i) (c !!! i)
  /\ FixedHash_not N a !!! i = 255 - a !!! i
  /\ (forall k, 0 <= k < 8 ->
        Z.testbit (FixedHash_not N a !!! i) k = negb (Z.testbit (a !!! i) k)).
Proof.
  intros Ha Hc Hi.
  rewrite xor_zip, or_zip, and_zip, not_map by assumption.
  pose proof Ha as [Hla Hba]. pose proof Hc as [Hlc Hbc].
  assert (Hnot : map (fun b => 255 - b) a !!! i = 255 - a !!! i).
  { apply list_lookup_total_correct. rewrite list_lookup_fmap.
    rewrite (list_lookup_lookup_total_lt a i) by lia. reflexivity. }
  assert (Hai : is_byte (a !!! i)) by (apply Forall_lookup_total_1; [exact Hba|lia]).
  split; [apply zip_with_wf; auto using lxor_is_byte|].
  split; [apply zip_with_wf; auto using lor_is_byte|].
  split; [apply zip_with_wf; auto using land_is_byte|].
  split.
  { split; [rewrite length_map; exact Hla|].
    apply Forall_map. eapply Forall_impl; [exact Hba|].
    intros b Hb. unfold is_byte in *. simpl. lia. }
  split; [apply zip_with_lookup_total; lia|].
  split; [apply zip_with_lookup_total; lia|].
  split; [apply zip_with_lookup_total; lia|].
  split; [exact Hnot|].
  intros k Hk. rewrite Hnot, <- wrap8_lnot by exact Hai.
  unfold wrap8, wrap. rewrite Z.mod_pow2_bits_low by lia.
  apply Z.lnot_spec. lia.
Qed.

Lemma bitwise_pointwise_witness :
  FixedHash_xor 2 [0x0f; 0x33] [0xff; 0x55] !!! 1%nat = Z.lxor 0x33 0x55
  /\ FixedHash_not 2 [0x0f; 0x33] !!! 0%nat = 0xf0.
Proof.
  destruct (bitwise_pointwise 2 [0x0f; 0x33] [0xff; 0x55] 1
              ltac:(solve_wf) ltac:(solve_wf) ltac:(lia))
    as (_ & _ & _ & _ & H & _).
  destruct (bitwise_pointwise 2 [0x0f; 0x33] [0xff; 0x55] 0
              ltac:(solve_wf) ltac:(solve_wf) ltac:(lia))
    as (_ & _ & _ & _ & _ & _ & _ & H' & _).
  split; [exact H|rewrite H'; reflexivity].
Defined.

Lemma list_ext_total (a b : list Z) :
  length a = length b ->
  (forall i : nat, (i < length a)%nat -> a !!! i = b !!! i) -> a = b.
Proof.
  intros Hlen Hext. apply (list_eq_same_length a b (length a)); [lia|reflexivity|].
  intros i x y Hi Hx Hy.
  rewrite <- (list_lookup_total_correct _ _ _ Hx), <- (list_lookup_total_correct _ _ _ Hy).
  apply Hext. exact Hi.
Qed.

Lemma byte_compl_bits (x k : Z) :
  is_byte x -> 0 <= k ->
  Z.testbit (255 - x) k = negb (Z.testbit x k) && (k <? 8).
Proof.
  intros Hx Hk. rewrite <- wrap8_lnot by exact Hx. unfold wrap8, wrap.
  destruct (Z.ltb_spec k 8) as [Hlt|Hge].
  - rewrite Z.mod_pow2_bits_low, Z.lnot_spec, andb_true_r by lia. reflexivity.
  - rewrite Z.mod_pow2_bits_high, andb_false_r by lia. reflexivity.
Qed.

Lemma compl_is_byte (x : Z) : is_byte x -> is_byte (255 - x).
Proof. unfold is_byte. lia. Qed.

Lemma map_compl_wf (N : Z) (a : list Z) :
  wf N a -> wf N (map (fun b => 255 - b) a).
Proof.
  intros [Hl Hb]. split; [rewrite length_map; exact Hl|].
  apply Forall_map. eapply Forall_impl; [exact Hb|].
  intros b Hb'. apply compl_is_byte. exact Hb'.
Qed.

Lemma map_compl_lookup (a : list Z) (i : nat) :
  (i < length a)%nat -> map (fun b => 255 - b) a !!! i = 255 - a !!! i.
Proof.
  intros Hi. apply list_lookup_total_correct. rewrite list_lookup_fmap.
  rewrite (list_lookup_lookup_total_lt a i) by lia. reflexivity.
Qed.

Lemma empty_wf (N : Z) : 0 <= N -> wf N (FixedHash_empty N).
Proof.
  intros HN. unfold FixedHash_empty. split; [rewrite length_replicate; lia|].
  apply Forall_replicate_byte. unfold is_byte. lia.
Qed.

Ltac bits_of_bytes :=
  apply Z.bits_inj'; intros ?k ?Hk;
  rewrite ?Z.land_spec, ?Z.lor_spec, ?Z.lxor_spec, ?Z.bits_0;
  rewrite ?byte_compl_bits by (assumption || auto using land_is_byte, lor_is_byte, lxor_is_byte);
  rewrite ?Z.land_spec, ?Z.lor_spec, ?Z.lxor_spec;
  repeat match goal with |- context [Z.testbit ?x ?n] =>
    destruct (Z.testbit x n) end;
  try reflexivity;
  repeat match goal with |- context [?n <? 8] => destruct (n <? 8) end;
  reflexivity.

(** X11.  Identities of the bitwise operators: [v ^ v] is the empty
    value and [(v ^ w) ^ w = v]; [v & empty = empty] and [v | empty = v];
    [~~v = v] and [v & ~v = empty]; [^], [|] and [&] are commutative; and
    De Morgan's law [~(v & w) = ~v | ~w] holds. *)
Theorem bitwise_identities (N : Z) (v w : list Z) :
  wf N v -> wf N w ->
  FixedHash_xor N v v = FixedHash_empty N
  /\ FixedHash_xor N (FixedHash_xor N v w) w = v
  /\ FixedHash_and N v (FixedHash_empty N) = FixedHash_empty N
  /\ FixedHash_or N v (FixedHash_empty N) = v
  /\ FixedHash_not N (FixedHash_not N v) = v
  /\ FixedHash_and N v (FixedHash_not N v) = FixedHash_empty N
  /\ FixedHash_xor N v w = FixedHash_xor N w v
  /\ FixedHash_or N v w = FixedHash_or N w v
  /\ FixedHash_and N v w = FixedHash_and N w v
  /\ FixedHash_not N (FixedHash_and N v w)
     = FixedHash_or N (FixedHash_not N v) (FixedHash_not N w).
Proof.
  intros Hv Hw.
  pose proof Hv as [Hlv Hbv]. pose proof Hw as [Hlw Hbw].
  assert (HN : 0 <= N) by lia.
  pose proof (empty_wf N HN) as He.
  assert (Hxw : wf N (zip_with Z.lxor v w)) by (apply zip_with_wf; auto using lxor_is_byte).
  assert (Haw : wf N (zip_with Z.land v w)) by (apply zip_with_wf; auto using land_is_byte).
  pose proof (map_compl_wf N v Hv) as Hnv.
  pose proof (map_compl_wf N w Hw) as Hnw.
  assert (Hle : length (FixedHash_empty N) = length v)
    by (unfold FixedHash_empty; rewrite length_replicate; lia).
  assert (Hbyte : forall (x : list Z) i, Forall is_byte x -> (i < length x)%nat ->
                    is_byte (x !!! i))
    by (intros x i Hx Hi; apply Forall_lookup_total_1; assumption).
  assert (Hz : forall i : nat, (i < length v)%nat -> FixedHash_empty N !!! i = 0)
    by (intros i Hi; unfold FixedHash_empty; apply lookup_total_replicate_2; lia).
  assert (Hxw' : wf N (FixedHash_xor N v w)) by (rewrite xor_zip; assumption).
  assert (Haw' : wf N (FixedHash_and N v w)) by (rewrite and_zip; assumption).
  assert (Hnv' : wf N (FixedHash_not N v)) by (rewrite not_map; assumption).
  assert (Hnw' : wf N (FixedHash_not N w)) by (rewrite not_map; assumption).
  rewrite !(xor_zip N), !(and_zip N), !(or_zip N), !(not_map N) by assumption.
  repeat split;
    (apply list_ext_total;
     [rewrite ?length_zip_with, ?length_map, ?length_zip_with, ?length_map; lia|]);
    intros i Hi;
    rewrite ?length_zip_with, ?length_map, ?length_zip_with, ?length_map in Hi;
    rewrite ?zip_with_lookup_total, ?map_compl_lookup, ?zip_with_lookup_total,
            ?map_compl_lookup, ?zip_with_lookup_total
      by (rewrite ?length_zip_with, ?length_map; lia);
    rewrite ?Hz by lia;
    pose proof (Hbyte v i Hbv ltac:(lia)) as Hvi;
    pose proof (Hbyte w i Hbw ltac:(lia)) as Hwi.
  - apply Z.lxor_nilpotent.
  - rewrite Z.lxor_assoc, Z.lxor_nilpotent. apply Z.lxor_0_r.
  - apply Z.land_0_r.
  - apply Z.lor_0_r.
  - lia.
  - bits_of_bytes.
  - apply Z.lxor_comm.
  - apply Z.lor_comm.
  - apply Z.land_comm.
  - bits_of_bytes.
Qed.

Lemma bitwise_identities_witness :
  FixedHash_xor 2 [0x0f; 0x33] [0x0f; 0x33] = [0; 0]
  /\ FixedHash_not 2 (FixedHash_not 2 [0x0f; 0x33]) = [0x0f; 0x33].
Proof.
  destruct (bitwise_identities 2 [0x0f; 0x33] [0xff; 0x55]
              ltac:(solve_wf) ltac:(solve_wf)) as (H1 & _ & _ & _ & H2 & _).
  split; [exact H1|exact H2].
Defined.

(** ** Containment *)

Lemma contains_zip (e : endianness) (N : Z) (a c : list Z) :
  wf N a -> wf N c ->
  contains e N a c = true <-> zip_with Z.land a c = c.
Proof.
  intros Ha Hc. unfold contains.
  rewrite (FixedHash_eq_true e N), and_zip; try assumption; [reflexivity|].
  rewrite and_zip by assumption. apply zip_with_wf; auto using land_is_byte.
Qed.

Lemma contains_bits (e : endianness) (N : Z) (a c : list Z) :
  wf N a -> wf N c ->
  contains e N a c = true <->
  (forall (i : nat) (k : Z), (i < length a)%nat -> 0 <= k ->
     Z.testbit (c !!! i) k = true -> Z.testbit (a !!! i) k = true).
Proof.
  intros Ha Hc. rewrite (contains_zip e N) by assumption.
  destruct Ha as [Hla _], Hc as [Hlc _]. split.
  - intros Heq i k Hi Hk Hbit.
    assert (Hi' : Z.land (a !!! i) (c !!! i) = c !!! i).
    { rewrite <- Heq at 2. symmetry. apply zip_with_lookup_total; lia. }
    rewrite <- Hi', Z.land_spec in Hbit. apply andb_true_iff in Hbit. apply Hbit.
  - intros Hsub. apply list_ext_total; [rewrite length_zip_with; lia|].
    intros i Hi. rewrite length_zip_with in Hi.
    rewrite zip_with_lookup_total by lia.
    apply Z.bits_inj'. intros k Hk. rewrite Z.land_spec.
    destruct (Z.testbit (c !!! i) k) eqn:Ec; [|apply andb_false_r].
    rewrite (Hsub i k) by (lia || assumption). reflexivity.
Qed.

(** X12.  [a.contains(c)] holds exactly when every bit set in [c] is set
    in [a].  It is reflexive, transitive and antisymmetric; every value
    contains the empty value; and [a | c] contains both [a] and [c]. *)
Theorem contains_is_bit_inclusion (e : endianness) (N : Z) (a c d : list Z) :
  wf N a -> wf N c -> wf N d ->
  (contains e N a c = true <->
   forall (i : nat) (k : Z), Z.of_nat i < N -> 0 <= k < 8 ->
     Z.testbit (c !!! i) k = true -> Z.testbit (a !!! i) k = true)
  /\ contains e N a a = true
  /\ contains e N a (FixedHash_empty N) = true
  /\ contains e N (FixedHash_or N a c) a = true
  /\ contains e N (FixedHash_or N a c) c = true
  /\ (contains e N a c = true -> contains e N c d = true ->
      contains e N a d = true)
  /\ (contains e N a c = true -> contains e N c a = true -> a = c).
Proof.
  intros Ha Hc Hd.
  pose proof Ha as [Hla Hba]. pose proof Hc as [Hlc Hbc]. pose proof Hd as [Hld Hbd].
  assert (HN : 0 <= N) by lia.
  pose proof (empty_wf N HN) as He.
  assert (Hor : wf N (FixedHash_or N a c))
    by (rewrite or_zip by assumption; apply zip_with_wf; auto using lor_is_byte).
  split.
  { rewrite (contains_bits e N) by assumption. split.
    - intros H i k Hi Hk. apply H; lia.
    - intros H i k Hi Hk Hbit. apply H; [lia| |exact Hbit].
      split; [exact Hk|].
      destruct (Z_lt_le_dec k 8) as [Hlt|Hge]; [exact Hlt|].
      rewrite byte_testbit_high in Hbit; [discriminate| |exact Hge].
      apply Forall_lookup_total_1; [exact Hbc|lia]. }
  split; [apply (contains_bits e N); auto|].
  split.
  { apply (contains_bits e N); auto. intros i k Hi Hk.
    unfold FixedHash_empty. rewrite lookup_total_replicate_2 by lia.
    rewrite Z.bits_0. discriminate. }
  split.
  { apply (contains_bits e N); auto. intros i k Hi Hk Hbit.
    destruct Hor as [Hlo _]. rewrite or_zip by assumption.
    rewrite zip_with_lookup_total by lia.
    rewrite Z.lor_spec, Hbit. reflexivity. }
  split.
  { apply (contains_bits e N); auto. intros i k Hi Hk Hbit.
    destruct Hor as [Hlo _]. rewrite or_zip by assumption.
    rewrite zip_with_lookup_total by lia.
    rewrite Z.lor_spec, Hbit. apply orb_true_r. }
  split.
  { rewrite !(contains_bits e N) by assumption.
    intros H1 H2 i k Hi Hk Hbit. apply H1; [exact Hi|exact Hk|].
    apply H2; [lia|exact Hk|exact Hbit]. }
  rewrite !(contains_bits e N) by assumption.
  intros H1 H2. apply list_ext_total; [lia|].
  intros i Hi. apply Z.bits_inj'. intros k Hk.
  destruct (Z.testbit (a !!! i) k) eqn:Ea, (Z.testbit (c !!! i) k) eqn:Ec;
    try reflexivity.
  - rewrite (H2 i k) in Ec by (lia || assumption). discriminate.
  - rewrite (H1 i k) in Ea by (lia || assumption). discriminate.
Qed.

Lemma contains_is_bit_inclusion_witness :
  contains LittleEndian 2 (FixedHash_or 2 [0x0f; 0x30] [0x81; 0]) [0x81; 0] = true
  /\ contains LittleEndian 2 [0x0f; 0x30] [0; 0] = true.
Proof.
  destruct (contains_is_bit_inclusion LittleEndian 2 [0x0f; 0x30] [0x81; 0] [0; 0]
              ltac:(solve_wf) ltac:(solve_wf) ltac:(solve_wf))
    as (_ & _ & H0 & _ & H & _).
  split; [exact H|exact H0].
Defined.

Lemma land_same_le (x y : Z) : 0 <= x -> Z.land x y = y -> y <= x.
Proof.
  intros Hx Hy.
  assert (Hdisj : Z.land (Z.ldiff x y) (Z.land x y) = 0).
  { apply Z.bits_inj'. intros k Hk.
    rewrite !Z.land_spec, Z.ldiff_spec, Z.bits_0.
    destruct (Z.testbit x k), (Z.testbit y k); reflexivity. }
  assert (Hsum : x = Z.ldiff x y + Z.land x y).
  { rewrite Z.add_nocarry_lxor, Z.lxor_lor by exact Hdisj.
    symmetry. apply Z.lor_ldiff_and. }
  assert (0 <= Z.ldiff x y) by (apply Z.ldiff_nonneg; left; exact Hx).
  lia.
Qed.

Lemma be_value_le_pointwise (a c : list Z) :
  Forall is_byte a -> Forall is_byte c -> length a = length c ->
  zip_with Z.land a c = c -> be_value c <= be_value a.
Proof.
  intros Ha. revert c.
  induction Ha as [|x a Hx Ha IH]; intros c Hc Hlen Hz.
  - destruct c; [lia|discriminate].
  - destruct Hc as [|y c Hy Hc]; [discriminate|].
    cbn [zip_with] in Hz. injection Hz as Hxy Hrest.
    simpl in Hlen. assert (Hl : length a = length c) by lia.
    rewrite !be_value_cons, <- Hl.
    pose proof (IH c Hc Hl Hrest).
    pose proof (land_same_le x y ltac:(unfold is_byte in Hx; lia) Hxy).
    assert (0 <= 2 ^ (8 * Z.of_nat (length a))) by (apply Z.pow_nonneg; lia).
    nia.
Qed.

(** X13.  Containment implies the order: if [a] contains [c] then
    [c <= a], the number [c] decodes to being at most that of [a]. *)
Theorem contains_implies_le (e : endianness) (N : Z) (a c : list Z) :
  wf N a -> wf N c -> contains e N a c = true ->
  FixedHash_le e N c a = true
  /\ fromBigEndian Bigint c <= fromBigEndian Bigint a.
Proof.
  intros Ha Hc Hcont.
  apply (contains_zip e N) in Hcont; [|assumption..].
  assert (Hle : fromBigEndian Bigint c <= fromBigEndian Bigint a).
  { destruct Ha as [Hla Hba], Hc as [Hlc Hbc].
    rewrite !fromBigEndian_bigint by assumption.
    apply be_value_le_pointwise; [assumption..|lia|exact Hcont]. }
  split; [|exact Hle].
  rewrite (FixedHash_le_value e N) by assumption. apply Z.leb_le. exact Hle.
Qed.

Lemma contains_implies_le_witness :
  FixedHash_le LittleEndian 2 [0x01; 0x30] [0x0f; 0x30] = true.
Proof.
  apply (contains_implies_le LittleEndian 2 [0x0f; 0x30] [0x01; 0x30]);
    [solve_wf|solve_wf|reflexivity].
Defined.

(** ** More on Bloom insertion and membership *)

Lemma bloom_part_ok (P M N e : Z) (x : list Z) :
  wf M x -> M < 2 ^ 32 -> 0 <= P -> 0 <= e -> N = 2 ^ e -> N * 8 < 2 ^ 32 ->
  P * Z.of_nat (bytesPerPick N) <= M ->
  bloomPart P N M x = Some (bloom_spec P N x) /\ wf N (bloom_spec P N x).
Proof.
  intros Hx HM HP He HN HN8 HPM.
  pose proof (pow2_exp_bound e He ltac:(rewrite <- HN; exact HN8)) as He28.
  split; [apply (bloomPart_spec P N M e); auto; lia|].
  rewrite HN. apply bloom_spec_wf. exact He.
Qed.

Lemma lor_wf (N : Z) (a c : list Z) :
  wf N a -> wf N c -> wf N (FixedHash_or N a c).
Proof.
  intros Ha Hc. rewrite or_zip by assumption.
  apply zip_with_wf; auto using lor_is_byte.
Qed.

Lemma or_lookup (N : Z) (a c : list Z) (i : nat) :
  wf N a -> wf N c -> (i < length a)%nat ->
  FixedHash_or N a c !!! i = Z.lor (a !!! i) (c !!! i).
Proof.
  intros Ha Hc Hi. rewrite or_zip by assumption.
  destruct Ha as [Hla _], Hc as [Hlc _]. apply zip_with_lookup_total; lia.
Qed.

(** X14.  Inserting into a Bloom filter only adds bits: the filter after
    [shiftBloom<P>(y)] contains the filter before, so every item that
    tested as present still does.  Insertions commute, and inserting an
    item a second time changes nothing. *)
Theorem shiftBloom_grows (host : endianness) (P M N e : Z)
    (self x y : list Z) :
  wf N self -> wf M x -> wf M y ->
  M < 2 ^ 32 -> 0 <= P -> 0 <= e -> N = 2 ^ e -> N * 8 < 2 ^ 32 ->
  P * Z.of_nat (bytesPerPick N) <= M ->
  exists sy sx sxy syx,
    shiftBloom P M N self y = Some sy
    /\ shiftBloom P M N self x = Some sx
    /\ shiftBloom P M N sx y = Some sxy
    /\ shiftBloom P M N sy x = Some syx
    /\ contains host N sy self = true
    /\ (containsBloom host P M N self x = Some true ->
        containsBloom host P M N sy x = Some true)
    /\ sxy = syx
    /\ shiftBloom P M N sy y = Some sy.
Proof.
  intros Hs Hx Hy HM HP He HN HN8 HPM.
  destruct (bloom_part_ok P M N e x) as [Hpx Hwx]; auto.
  destruct (bloom_part_ok P M N e y) as [Hpy Hwy]; auto.
  set (px := bloom_spec P N x) in *. set (py := bloom_spec P N y) in *.
  pose proof (lor_wf N self py Hs Hwy) as Hsy.
  pose proof (lor_wf N self px Hs Hwx) as Hsx.
  pose proof (lor_wf N _ py Hsx Hwy) as Hsxy.
  pose proof (lor_wf N _ px Hsy Hwx) as Hsyx.
  pose proof Hs as [Hls _]. pose proof Hsy as [Hlsy _].
  pose proof Hsx as [Hlsx _]. pose proof Hwx as [Hlpx _].
  pose proof Hsxy as [Hlsxy _]. pose proof Hsyx as [Hlsyx _].
  pose proof (lor_wf N _ py Hsy Hwy) as [Hlsyy _].
  exists (FixedHash_or N self py), (FixedHash_or N self px),
         (FixedHash_or N (FixedHash_or N self px) py),
         (FixedHash_or N (FixedHash_or N self py) px).
  unfold shiftBloom, containsBloom. rewrite Hpx, Hpy.
  change or_assign with FixedHash_or.
  split; [reflexivity|]. split; [reflexivity|].
  split; [reflexivity|]. split; [reflexivity|].
  split.
  { apply (contains_bits host N); auto. intros i k Hi Hk Hbit.
    rewrite or_lookup by (assumption || lia). rewrite Z.lor_spec, Hbit. reflexivity. }
  split.
  { intros [= Hc]. apply (f_equal Some).
    rewrite (contains_bits host N) in Hc |- * by assumption.
    intros i k Hi Hk Hbit.
    rewrite or_lookup by (assumption || lia).
    rewrite Z.lor_spec, (Hc i k) by (lia || assumption). reflexivity. }
  split.
  { apply list_ext_total; [lia|]. intros i Hi.
    rewrite !or_lookup by (assumption || lia).
    rewrite <- !Z.lor_assoc. f_equal. apply Z.lor_comm. }
  apply (f_equal Some). apply list_ext_total; [lia|].
  intros i Hi. rewrite !or_lookup by (assumption || lia).
  rewrite <- Z.lor_assoc, Z.lor_diag. reflexivity.
Qed.

Lemma shiftBloom_grows_witness :
  let self := [0xaa; 0; 0; 0] in
  let x := [0x01; 0x02] in
  let y := [0x1f; 0x03] in
  exists sy, shiftBloom 2 2 4 self y = Some sy
             /\ contains LittleEndian 4 sy self = true.
Proof.
  intros self x y.
  destruct (shiftBloom_grows LittleEndian 2 2 4 2 self x y)
    as (sy & _ & _ & _ & Hsy & _ & _ & _ & Hc & _).
  - subst self. solve_wf.
  - subst x. solve_wf.
  - subst y. solve_wf.
  - lia.
  - lia.
  - lia.
  - reflexivity.
  - lia.
  - change (bytesPerPick 4) with 1%nat. lia.
  - exists sy. split; [exact Hsy|exact Hc].
Defined.

Lemma bloom_spec_popcount_pos (P e : Z) (v : list Z) :
  0 <= e -> 1 <= P -> 1 <= popcount (bloom_spec P (2 ^ e) v).
Proof.
  intros He HP.
  assert (HM : 0 < 2 ^ e) by (apply Z.pow_pos_nonneg; lia).
  destruct (fold_set_bit_popcount (2 ^ e) (pick_index (2 ^ e) v)
              (seq 0 (Z.to_nat P)) (replicate (Z.to_nat (2 ^ e)) 0) HM) as [_ Hone].
  - intros j. apply pick_index_range. exact He.
  - apply length_replicate.
  - apply Forall_replicate_byte. unfold is_byte. lia.
  - apply Hone. destruct (Z.to_nat P) eqn:EP; [lia|discriminate].
Qed.

(** X15.  With at least one pick, the empty filter contains no item:
    [containsBloom<P>] on the all-zero value is false for every item.
    With no pick at all ([P = 0]) the part is the empty value, insertion
    leaves the filter as it is, and every item tests as present. *)
Theorem bloom_empty_filter_and_no_pick (host : endianness) (P M N e : Z)
    (self x : list Z) :
  wf N self -> wf M x ->
  M < 2 ^ 32 -> 0 <= P -> 0 <= e -> N = 2 ^ e -> N * 8 < 2 ^ 32 ->
  P * Z.of_nat (bytesPerPick N) <= M ->
  (1 <= P -> containsBloom host P M N (FixedHash_empty N) x = Some false)
  /\ (P = 0 ->
      bloomPart P N M x = Some (FixedHash_empty N)
      /\ shiftBloom P M N self x = Some self
      /\ containsBloom host P M N self x = Some true).
Proof.
  intros Hs Hx HM HP He HN HN8 HPM.
  destruct (bloom_part_ok P M N e x) as [Hpx Hwx]; auto.
  pose proof Hs as [Hls Hbs].
  assert (HN0 : 0 <= N) by lia.
  pose proof (empty_wf N HN0) as Hemp.
  split.
  - intros HP1. unfold containsBloom. rewrite Hpx. apply (f_equal Some).
    apply not_true_iff_false. intros Hc.
    apply (contains_zip host N) in Hc; [|assumption..].
    assert (Hz : bloom_spec P N x = FixedHash_empty N).
    { rewrite <- Hc. destruct Hwx as [Hlx _]. destruct Hemp as [Hle _].
      apply list_ext_total; [rewrite length_zip_with; lia|].
      intros i Hi. rewrite length_zip_with in Hi.
      rewrite zip_with_lookup_total by lia.
      unfold FixedHash_empty. rewrite lookup_total_replicate_2 by lia.
      apply Z.land_0_l. }
    pose proof (bloom_spec_popcount_pos P e x He HP1) as Hpos.
    rewrite <- HN, Hz in Hpos. unfold FixedHash_empty in Hpos.
    rewrite popcount_replicate_0 in Hpos. lia.
  - intros ->.
    assert (Hpart : bloom_spec 0 N x = FixedHash_empty N) by reflexivity.
    unfold shiftBloom, containsBloom. rewrite Hpx, Hpart.
    change or_assign with FixedHash_or.
    split; [reflexivity|]. split; apply (f_equal Some).
    + destruct (lor_wf N self _ Hs Hemp) as [Hlo _].
      apply list_ext_total; [lia|]. intros i Hi.
      rewrite or_lookup by (assumption || lia).
      unfold FixedHash_empty. rewrite lookup_total_replicate_2 by lia.
      apply Z.lor_0_r.
    + apply (contains_bits host N); auto. intros i k Hi Hk.
      unfold FixedHash_empty. rewrite lookup_total_replicate_2 by lia.
      rewrite Z.bits_0. discriminate.
Qed.

Lemma bloom_empty_filter_and_no_pick_witness :
  containsBloom LittleEndian 2 2 4 (FixedHash_empty 4) [0x01; 0x02] = Some false.
Proof.
  apply (proj1 (bloom_empty_filter_and_no_pick LittleEndian 2 2 4 2
                  [0; 0; 0; 0] [0x01; 0x02]
                  ltac:(solve_wf) ltac:(solve_wf) ltac:(lia) ltac:(lia) ltac:(lia)
                  eq_refl ltac:(lia)
                  ltac:(change (bytesPerPick 4) with 1%nat; lia))).
  lia.
Defined.

Lemma fold_left_ext_in {A B : Type} (f g : A -> B -> A) (l : list B) (a : A) :
  (forall x r, In x l -> f r x = g r x) -> fold_left f l a = fold_left g l a.
Proof.
  revert a. induction l as [|x l IH]; intros a Hext; [reflexivity|].
  cbn [fold_left]. rewrite (Hext x a) by (left; reflexivity).
  apply IH. intros y r Hy. apply Hext. right. exact Hy.
Qed.

Lemma pick_index_prefix (M : Z) (v v' : list Z) (j n : nat) :
  ((j + 1) * bytesPerPick M <= n)%nat -> take n v = take n v' ->
  pick_index M v j = pick_index M v' j.
Proof.
  intros Hj Hpre. unfold pick_index.
  set (bpp := bytesPerPick M) in *.
  assert (H : forall l : list Z,
            take bpp (drop (j * bpp) l) = take bpp (drop (j * bpp) (take n l))).
  { intros l. rewrite !take_drop_commute, take_take.
    f_equal. f_equal. lia. }
  rewrite (H v), (H v'), Hpre. reflexivity.
Qed.

(** X16.  [bloomPart<P, M>] reads only the first [P * bytesPerPick]
    bytes of the source: two sources that agree on these bytes, whatever
    their sizes and their other bytes, have the same part. *)
Theorem bloomPart_reads_prefix (P M N N' e : Z) (v v' : list Z) :
  wf N v -> wf N' v' -> N < 2 ^ 32 -> N' < 2 ^ 32 ->
  0 <= P -> 0 <= e -> M = 2 ^ e -> M * 8 < 2 ^ 32 ->
  P * Z.of_nat (bytesPerPick M) <= N -> P * Z.of_nat (bytesPerPick M) <= N' ->
  take (Z.to_nat P * bytesPerPick M) v = take (Z.to_nat P * bytesPerPick M) v' ->
  bloomPart P M N v = bloomPart P M N' v'.
Proof.
  intros Hv Hv' HN HN' HP He HM HM8 HPN HPN' Hpre.
  pose proof (pow2_exp_bound e He ltac:(rewrite <- HM; exact HM8)) as He28.
  rewrite (bloomPart_spec P M N e v), (bloomPart_spec P M N' e v'); auto; try lia.
  apply (f_equal Some). unfold bloom_spec.
  apply fold_left_ext_in. intros j r Hj. apply in_seq in Hj.
  rewrite (pick_index_prefix M v v' j (Z.to_nat P * bytesPerPick M)); [reflexivity| |exact Hpre].
  nia.
Qed.

Lemma bloomPart_reads_prefix_witness :
  bloomPart 2 4 3 [0x05; 0x1f; 0x77] = bloomPart 2 4 2 [0x05; 0x1f].
Proof.
  apply (bloomPart_reads_prefix 2 4 3 2 2).
  - solve_wf.
  - solve_wf.
  - lia.
  - lia.
  - lia.
  - lia.
  - reflexivity.
  - lia.
  - change (bytesPerPick 4) with 1%nat. lia.
  - change (bytesPerPick 4) with 1%nat. lia.
  - reflexivity.
Defined.

(** ** More on the increment *)

Lemma add_mod_fixed (d k m : Z) :
  0 <= d < m -> ((d + k) mod m = d <-> k mod m = 0).
Proof.
  intros Hd.
  pose proof (Z.mod_pos_bound k m ltac:(lia)) as Hr.
  rewrite <- (Zplus_mod_idemp_r k d m).
  destruct (Z_lt_le_dec (d + k mod m) m) as [Hlt|Hge].
  - rewrite Z.mod_small by lia. lia.
  - replace ((d + k mod m) mod m) with (d + k mod m - m)
      by (apply Z.mod_unique with (q := 1); lia).
    lia.
Qed.

Lemma incr_iter_value (N : Z) (v : list Z) (k : nat) :
  wf N v ->
  wf N (Nat.iter k (FixedHash_incr N) v)
  /\ be_value (Nat.iter k (FixedHash_incr N) v)
     = (be_value v + Z.of_nat k) mod 2 ^ (N * 8).
Proof.
  intros Hv. induction k as [|k [IHwf IHval]].
  - change (Nat.iter 0 (FixedHash_incr N) v) with v. split; [exact Hv|].
    rewrite Z.add_0_r. symmetry. apply Z.mod_small.
    destruct Hv as [Hl Hb]. pose proof (be_value_range v Hb).
    replace (N * 8) with (8 * Z.of_nat (length v)) by lia. assumption.
  - change (Nat.iter (S k) (FixedHash_incr N) v)
      with (FixedHash_incr N (Nat.iter k (FixedHash_incr N) v)).
    destruct (FixedHash_incr_value N _ IHwf) as [Hwf Hval].
    split; [exact Hwf|].
    rewrite Hval, IHval, Zplus_mod_idemp_l. f_equal. lia.
Qed.

(** X17.  [k] increments add [k] modulo [2^(N*8)]: the value after [k]
    applications of [operator++] decodes to [(decoding of v + k) mod
    2^(N*8)], and it is [v] again exactly when [k] is a multiple of
    [2^(N*8)]; so counting up from any value comes back to it after
    [2^(N*8)] steps and not before. *)
Theorem incr_iterated (N : Z) (v : list Z) (k : nat) :
  wf N v ->
  wf N (Nat.iter k (FixedHash_incr N) v)
  /\ fromBigEndian Bigint (Nat.iter k (FixedHash_incr N) v)
     = (fromBigEndian Bigint v + Z.of_nat k) mod 2 ^ (N * 8)
  /\ (Nat.iter k (FixedHash_incr N) v = v <-> Z.of_nat k mod 2 ^ (N * 8) = 0).
Proof.
  intros Hv. destruct (incr_iter_value N v k Hv) as [Hwf Hval].
  pose proof Hv as [Hl Hb]. pose proof Hwf as [Hl' Hb'].
  rewrite !fromBigEndian_bigint by assumption.
  split; [exact Hwf|]. split; [exact Hval|].
  pose proof (be_value_range v Hb) as Hr.
  replace (8 * Z.of_nat (length v)) with (N * 8) in Hr by lia.
  rewrite <- (add_mod_fixed (be_value v) (Z.of_nat k) (2 ^ (N * 8)) Hr), <- Hval.
  split; [intros ->; reflexivity|].
  apply be_value_inj; [assumption..|lia].
Qed.

Lemma incr_iterated_witness :
  Nat.iter 256 (FixedHash_incr 1) [7] = [7].
Proof.
  apply (proj2 (proj2 (incr_iterated 1 [7] 256 ltac:(solve_wf)))). reflexivity.
Defined.

(** X18.  Unless the value is all [0xFF], [operator++] gives the next
    larger value: the result decodes to the decoding plus one and
    [v < ++v].  The operator is injective, and on all [0xFF] it gives the
    value below every other one. *)
Theorem incr_is_next (e : endianness) (N : Z) (v w : list Z) :
  wf N v -> wf N w ->
  (v <> replicate (Z.to_nat N) 0xff ->
     fromBigEndian Bigint (FixedHash_incr N v) = fromBigEndian Bigint v + 1
     /\ FixedHash_lt N v (FixedHash_incr N v) = true)
  /\ (FixedHash_incr N v = FixedHash_incr N w -> v = w)
  /\ (v = replicate (Z.to_nat N) 0xff ->
      FixedHash_le e N (FixedHash_incr N v) w = true).
Proof.
  intros Hv Hw.
  destruct (FixedHash_incr_value N v Hv) as [Hiv Hvalv].
  destruct (FixedHash_incr_value N w Hw) as [Hiw Hvalw].
  pose proof Hv as [Hlv Hbv]. pose proof Hw as [Hlw Hbw].
  pose proof (be_value_range v Hbv) as Rv.
  pose proof (be_value_range w Hbw) as Rw.
  replace (8 * Z.of_nat (length v)) with (N * 8) in Rv by lia.
  replace (8 * Z.of_nat (length w)) with (N * 8) in Rw by lia.
  assert (Hmax : be_value v = 2 ^ (N * 8) - 1 -> v = replicate (Z.to_nat N) 255).
  { intros Hm. apply be_value_inj.
    - exact Hbv.
    - apply Forall_replicate_byte. unfold is_byte. lia.
    - rewrite length_replicate. lia.
    - rewrite be_value_replicate_255, Hm. f_equal. f_equal. lia. }
  split; [|split].
  - intros Hne.
    assert (Hlt : be_value v + 1 < 2 ^ (N * 8))
      by (destruct (Z.eq_dec (be_value v) (2 ^ (N * 8) - 1)) as [Heq|]; [elim (Hne (Hmax Heq))|lia]).
    assert (Hval : be_value (FixedHash_incr N v) = be_value v + 1)
      by (rewrite Hvalv; apply Z.mod_small; lia).
    rewrite (FixedHash_lt_value N) by assumption.
    rewrite !fromBigEndian_bigint by (apply Hiv || exact Hbv).
    split; [exact Hval|]. apply Z.ltb_lt. lia.
  - intros Heq. apply be_value_inj; [assumption..|lia|].
    assert (Hm : (be_value v + 1) mod 2 ^ (N * 8) = (be_value w + 1) mod 2 ^ (N * 8))
      by (rewrite <- Hvalv, <- Hvalw, Heq; reflexivity).
    destruct (Z.eq_dec (be_value v) (2 ^ (N * 8) - 1)) as [Ev|Ev];
    destruct (Z.eq_dec (be_value w) (2 ^ (N * 8) - 1)) as [Ew|Ew].
    + lia.
    + rewrite Ev in Hm. replace (2 ^ (N * 8) - 1 + 1) with (2 ^ (N * 8)) in Hm by lia.
      rewrite Z.mod_same, Z.mod_small in Hm by lia. lia.
    + rewrite Ew in Hm. replace (2 ^ (N * 8) - 1 + 1) with (2 ^ (N * 8)) in Hm by lia.
      rewrite Z.mod_same, Z.mod_small in Hm by lia. lia.
    + rewrite !Z.mod_small in Hm by lia. lia.
  - intros ->. rewrite (FixedHash_le_value e N) by assumption.
    rewrite !fromBigEndian_bigint by (apply Hiv || exact Hbw).
    rewrite Hvalv, be_value_replicate_255.
    replace (8 * Z.of_nat (Z.to_nat N)) with (N * 8) by lia.
    replace (2 ^ (N * 8) - 1 + 1) with (2 ^ (N * 8)) by lia.
    rewrite Z.mod_same by lia. apply Z.leb_le. lia.
Qed.

Lemma incr_is_next_witness :
  FixedHash_lt 2 [0x01; 0xff] (FixedHash_incr 2 [0x01; 0xff]) = true.
Proof.
  destruct (incr_is_next LittleEndian 2 [0x01; 0xff] [0; 0]
              ltac:(solve_wf) ltac:(solve_wf)) as (H & _).
  apply H. discriminate.
Defined.

(** ** The first set bit and the number *)

Lemma testbit_add_pow2 (b r k p : Z) :
  0 <= k -> 0 <= r < 2 ^ k -> 0 <= p ->
  Z.testbit (b * 2 ^ k + r) p
  = if p <? k then Z.testbit r p else Z.testbit b (p - k).
Proof.
  intros Hk Hr Hp. destruct (Z.ltb_spec p k) as [Hlt|Hge].
  - rewrite <- (Z.mod_pow2_bits_low (b * 2 ^ k + r) k p) by lia.
    rewrite Z.add_comm, Z.mod_add by (apply Z.pow_nonzero; lia).
    rewrite Z.mod_small by lia. reflexivity.
  - replace p with ((p - k) + k) at 1 by lia.
    rewrite <- Z.div_pow2_bits by lia.
    rewrite Z.add_comm, Z.div_add by (apply Z.pow_nonzero; lia).
    rewrite Z.div_small by lia. reflexivity.
Qed.

Lemma bit_msb_testbit (v : list Z) (q : Z) :
  Forall is_byte v -> 0 <= q < 8 * Z.of_nat (length v) ->
  bit_msb v q = Z.testbit (be_value v) (8 * Z.of_nat (length v) - 1 - q).
Proof.
  intros Hv. revert q. induction Hv as [|b l Hb Hl IH]; intros q Hq.
  - simpl in Hq. lia.
  - rewrite length_cons, Nat2Z.inj_succ in *.
    rewrite be_value_cons.
    pose proof (be_value_range l Hl) as Hr.
    rewrite testbit_add_pow2 by lia.
    destruct (Z_lt_le_dec q 8) as [Hlt|Hge].
    + rewrite bit_msb_cons_lt by lia.
      rewrite (proj2 (Z.ltb_ge _ _)) by lia. f_equal. lia.
    + rewrite bit_msb_cons_ge by lia.
      rewrite (proj2 (Z.ltb_lt _ _)) by lia.
      rewrite IH by lia. f_equal. lia.
Qed.

(** X19.  On a non-zero value (one whose conversion to [bool] is true)
    [firstBitSet] is the number of leading zero bits of the big-endian
    number: [N * 8 - 1 - log2 (decoding)]; it is [N * 8] exactly on the
    value whose conversion to [bool] is false. *)
Theorem firstBitSet_is_leading_zeros (N : Z) (v : list Z) (fuel : nat) :
  wf N v -> N * 8 < 2 ^ 32 -> (8 <= fuel)%nat ->
  (FixedHash_bool v = true ->
     firstBitSet fuel v
     = Some (N * 8 - 1 - Z.log2 (fromBigEndian Bigint v)))
  /\ (FixedHash_bool v = false -> firstBitSet fuel v = Some (N * 8))
  /\ (firstBitSet fuel v = Some (N * 8) -> FixedHash_bool v = false).
Proof.
  intros [Hlen Hb] HN Hfuel.
  destruct (firstBitSet_loop_spec fuel v 0 Hfuel Hb) as (r & Hr & Hrange & Hclear & Hset);
    [lia..|].
  rewrite Z.add_0_l in Hr. unfold firstBitSet. rewrite Hr.
  rewrite fromBigEndian_bigint by exact Hb.
  pose proof (be_value_range v Hb) as Hx.
  set (x := be_value v) in *.
  set (n := 8 * Z.of_nat (length v)) in *.
  assert (Hn : N * 8 = n) by (unfold n; lia). rewrite Hn.
  assert (Hc : forall q, 0 <= q < r -> Z.testbit x (n - 1 - q) = false).
  { intros q Hq. unfold x, n. rewrite <- bit_msb_testbit by (assumption || lia).
    apply Hclear. exact Hq. }
  assert (Hs : r < n -> Z.testbit x (n - 1 - r) = true).
  { intros Hlt. unfold x, n. rewrite <- bit_msb_testbit by (assumption || lia).
    apply Hset. exact Hlt. }
  assert (Hzero : FixedHash_bool v = false <-> x = 0).
  { rewrite FixedHash_bool_false. split.
    - intros Hz. unfold x. rewrite Hz. apply be_value_replicate_0.
    - intros Hz. apply be_value_inj.
      + exact Hb.
      + apply Forall_replicate_byte. unfold is_byte. lia.
      + rewrite length_replicate. reflexivity.
      + rewrite be_value_replicate_0. exact Hz. }
  assert (Hnz : 0 < x -> r = n - 1 - Z.log2 x).
  { intros Hpos.
    assert (HL : Z.log2 x < n) by (apply Z.log2_lt_pow2; lia).
    pose proof (Z.log2_nonneg x) as HL0.
    pose proof (Z.bit_log2 x Hpos) as Hbit.
    assert (Hle : r <= n - 1 - Z.log2 x).
    { destruct (Z_le_gt_dec r (n - 1 - Z.log2 x)) as [H|H]; [exact H|].
      pose proof (Hc (n - 1 - Z.log2 x) ltac:(lia)) as Hf.
      replace (n - 1 - (n - 1 - Z.log2 x)) with (Z.log2 x) in Hf by lia.
      rewrite Hbit in Hf. discriminate. }
    specialize (Hs ltac:(lia)).
    destruct (Z_le_gt_dec (n - 1 - r) (Z.log2 x)) as [H|H]; [lia|].
    rewrite Z.bits_above_log2 in Hs by lia. discriminate. }
  split; [|split].
  - intros Ht. f_equal. apply Hnz.
    destruct (Z.eq_dec x 0) as [Hz|Hz]; [|lia].
    apply Hzero in Hz. congruence.
  - intros Hf. apply Hzero in Hf. f_equal.
    destruct (Z_lt_le_dec r n) as [Hlt|Hge]; [|lia].
    specialize (Hs Hlt). rewrite Hf, Z.bits_0 in Hs. discriminate.
  - intros [= Hrn]. apply Hzero.
    destruct (Z.eq_dec x 0) as [Hz|Hz]; [exact Hz|].
    pose proof (Z.log2_nonneg x). specialize (Hnz ltac:(lia)). lia.
Qed.

Lemma firstBitSet_is_leading_zeros_witness :
  firstBitSet 8 [0; 0x1a; 0xff] = Some (3 * 8 - 1 - Z.log2 0x1aff).
Proof.
  destruct (firstBitSet_is_leading_zeros 3 [0; 0x1a; 0xff] 8
              ltac:(solve_wf) ltac:(lia) ltac:(lia)) as (H & _).
  rewrite H by reflexivity. reflexivity.
Defined.

(** ** The compile-time logarithm *)

(** X20.  [StaticLog2<n>] is the integer (floor) logarithm in base 2 for
    every [n >= 1]: its result [r] satisfies [2^r <= n < 2^(r+1)]; it has
    no value for [n = 0], where the template recursion never reaches its
    base case. *)
Theorem StaticLog2_is_floor_log2 (n : Z) :
  (0 < n ->
     exists r, StaticLog2 n = Some r /\ 0 <= r /\ 2 ^ r <= n < 2 ^ (r + 1)
               /\ r = Z.log2 n)
  /\ (n <= 0 -> StaticLog2 n = None).
Proof.
  split.
  - intros Hn. exists (Z.log2 n).
    split; [apply StaticLog2_log2; exact Hn|].
    split; [apply Z.log2_nonneg|].
    split; [|reflexivity].
    pose proof (Z.log2_spec n Hn) as Hs.
    replace (Z.log2 n + 1) with (Z.succ (Z.log2 n)) by lia. exact Hs.
  - intros Hn. destruct n; [reflexivity|lia|reflexivity].
Qed.

Lemma StaticLog2_is_floor_log2_witness :
  StaticLog2 256 = Some 8 /\ StaticLog2 1000 = Some 9 /\ StaticLog2 0 = None.
Proof.
  destruct (proj1 (StaticLog2_is_floor_log2 256) ltac:(lia)) as (r & Hr & _ & _ & Hl).
  destruct (proj1 (StaticLog2_is_floor_log2 1000) ltac:(lia)) as (r' & Hr' & _ & _ & Hl').
  split; [rewrite Hr, Hl; reflexivity|].
  split; [rewrite Hr', Hl'; reflexivity|].
  apply (proj2 (StaticLog2_is_floor_log2 0)). lia.
Defined.

(** ** How the constructors compose *)



(** X22.  Widening a value and narrowing it back with the same alignment
    gives the value again: for [M <= N] and either alignment,
    [FixedHash<M>(FixedHash<N>(h, t), t) = h]. *)
Theorem widen_then_narrow (N M : Z) (h : list Z) (t : ConstructFromHashType) :
  wf M h -> M <= N -> N < 2 ^ 32 ->
  FixedHash_from_hash M N (FixedHash_from_hash N M h t) t = h.
Proof.
  intros [Hlen Hb] HMN HN.
  assert (Hl : length h = Z.to_nat M) by lia.
  assert (Hm : (Z.to_nat M <= Z.to_nat N)%nat) by lia.
  destruct (is_AlignRight t) eqn:Et.
  - destruct t; try discriminate.
    rewrite (FixedHash_from_hash_right N M) by lia.
    rewrite FixedHash_from_hash_right;
      [|lia|lia|rewrite length_app, length_replicate, length_drop; lia].
    replace (Z.to_nat M - Z.to_nat N)%nat with 0%nat by lia.
    rewrite drop_0. cbn [replicate app].
    rewrite drop_app_length' by (rewrite length_replicate; reflexivity).
    reflexivity.
  - rewrite (FixedHash_from_hash_left N M) by assumption.
    rewrite FixedHash_from_hash_left;
      [|exact Et|rewrite length_app, length_replicate, length_take; lia].
    replace (Z.to_nat M - Z.to_nat N)%nat with 0%nat by lia.
    cbn [replicate]. rewrite app_nil_r.
    rewrite (take_ge h) by lia.
    rewrite take_app_length' by (symmetry; exact Hl). reflexivity.
Qed.

Lemma widen_then_narrow_witness :
  FixedHash_from_hash 2 5 (FixedHash_from_hash 5 2 [0x12; 0x34] AlignRight) AlignRight
  = [0x12; 0x34].
Proof. apply widen_then_narrow; [solve_wf|lia|lia]. Defined.

(** X23.  Counting and construction from a number agree: for [N >= 4]
    and [_u + 1] still an [unsigned], incrementing [FixedHash(_u)] gives
    [FixedHash(_u + 1)]. *)
Theorem incr_from_unsigned (N : Z) (m_data0 m_data1 : list Z) (_u : Z) :
  Z.of_nat (length m_data0) = N -> Z.of_nat (length m_data1) = N ->
  4 <= N -> 0 <= _u -> _u + 1 < 2 ^ 32 ->
  FixedHash_incr N (FixedHash_from_unsigned m_data0 _u)
  = FixedHash_from_unsigned m_data1 (_u + 1).
Proof.
  intros H0 H1 HN Hu Hu1. unfold FixedHash_from_unsigned.
  assert (HT : cast (Unsigned 32) 255 = 255) by reflexivity.
  rewrite !toBigEndian_be_bytes by exact HT.
  assert (Hpow : 2 ^ 32 <= 2 ^ (N * 8)) by (apply Z.pow_le_mono_r; lia).
  assert (Hwf : forall (l : list Z) z, Z.of_nat (length l) = N -> wf N (be_bytes (length l) z))
    by (intros l z Hl; split; [rewrite length_be_bytes; exact Hl|apply be_bytes_is_byte]).
  destruct (FixedHash_incr_value N _ (Hwf m_data0 _u H0)) as [[Hli Hbi] Hval].
  apply be_value_inj.
  - exact Hbi.
  - apply be_bytes_is_byte.
  - rewrite length_be_bytes. lia.
  - rewrite Hval, !be_value_be_bytes.
    replace (8 * Z.of_nat (length m_data0)) with (N * 8) by lia.
    replace (8 * Z.of_nat (length m_data1)) with (N * 8) by lia.
    rewrite (Z.mod_small _u) by lia. reflexivity.
Qed.

Lemma incr_from_unsigned_witness :
  FixedHash_incr 4 (FixedHash_from_unsigned [0; 0; 0; 0] 0x1ff)
  = FixedHash_from_unsigned [9; 9; 9; 9] 0x200.
Proof. apply incr_from_unsigned; (reflexivity || lia). Defined.

(** X24.  The membership test looks at the picked bits and at nothing
    else: [containsBloom<P>(x)] is true exactly when, for every pick
    [j < P] of [x], bit [index mod 8] of byte [N - 1 - index / 8] of the
    filter is set. *)
Theorem containsBloom_tests_picked_bits (host : endianness) (P M N e : Z)
    (self x : list Z) :
  wf N self -> wf M x ->
  M < 2 ^ 32 -> 0 <= P -> 0 <= e -> N = 2 ^ e -> N * 8 < 2 ^ 32 ->
  P * Z.of_nat (bytesPerPick N) <= M ->
  exists b,
    containsBloom host P M N self x = Some b
    /\ (b = true <->
        forall j : nat, Z.of_nat j < P ->
          Z.testbit (self !!! Z.to_nat (N - 1 - pick_index N x j / 8))
                    (pick_index N x j mod 8) = true).
Proof.
  intros Hs Hx HM HP He HN HN8 HPM.
  destruct (bloom_part_ok P M N e x) as [Hpx Hwx]; auto.
  assert (HN0 : 0 < N) by (rewrite HN; apply Z.pow_pos_nonneg; lia).
  assert (Hidx : forall j, 0 <= pick_index N x j < N * 8)
    by (intros j; rewrite HN; apply pick_index_range; exact He).
  assert (Hz : Forall is_byte (replicate (Z.to_nat N) 0))
    by (apply Forall_replicate_byte; unfold is_byte; lia).
  pose proof Hs as [Hls Hbs].
  assert (Hbit : forall (a : nat) (k : Z), Z.of_nat a < N -> 0 <= k ->
            Z.testbit (bloom_spec P N x !!! a) k
            = existsb (fun j => (Z.of_nat a =? N - 1 - pick_index N x j / 8)
                                && (k =? pick_index N x j mod 8))
                      (seq 0 (Z.to_nat P))).
  { intros a k Ha Hk. unfold bloom_spec.
    rewrite fold_set_bit_testbit; auto using length_replicate.
    rewrite lookup_total_replicate_2 by lia. rewrite Z.bits_0. reflexivity. }
  exists (contains host N self (bloom_spec P N x)).
  unfold containsBloom. rewrite Hpx. split; [reflexivity|].
  rewrite (contains_bits host N) by assumption. split.
  - intros Hc j Hj.
    destruct (pick_position N _ HN0 (Hidx j)) as [Hpos Hk].
    apply Hc; [lia|lia|].
    rewrite Hbit by lia. apply existsb_seq. exists j. split; [lia|].
    apply andb_true_iff. split; apply Z.eqb_eq; [lia|reflexivity].
  - intros Hall i k Hi Hk Hset.
    rewrite Hbit in Hset by lia. apply existsb_seq in Hset as (j & Hj & Hf).
    apply andb_true_iff in Hf as [H1 H2]. apply Z.eqb_eq in H1, H2.
    specialize (Hall j ltac:(lia)).
    rewrite <- H1, Nat2Z.id, <- H2 in Hall. exact Hall.
Qed.

Lemma containsBloom_tests_picked_bits_witness :
  exists b, containsBloom LittleEndian 2 2 4 [0xaa; 0; 0; 0x06] [0x01; 0x02] = Some b.
Proof.
  destruct (containsBloom_tests_picked_bits LittleEndian 2 2 4 2
              [0xaa; 0; 0; 0x06] [0x01; 0x02]) as (b & Hb & _).
  - solve_wf.
  - solve_wf.
  - lia.
  - lia.
  - lia.
  - reflexivity.
  - lia.
  - change (bytesPerPick 4) with 1%nat. lia.
  - exists b. exact Hb.
Defined.
